(** * spa/main.cc: relative-pose cost model, analytic Jacobian and problem assembly

    A shallow embedding of [src/spa/main.cc].  The program works on C++
    [double]s; the embedding is written once over an interface of the
    operations the program applies to a [double] ([DoubleOps], [Libm]) and is
    then read at two carriers:

    - [float], the IEEE-754 binary64 numbers of the kernel, where every
      arithmetic step of the program can be evaluated; and
    - [R], the real numbers, where rounding is idealised away and the
      algebraic statements of the specification live.

    The template parameter [T] of [NormalizeAngleDifference] and of
    [SpaCostFunctor::operator()] is a second interface ([Scalar], [Trig]),
    instantiated at [double] itself and at first-order jets. *)

From Stdlib Require Import Reals Lra Floats ZArith List.
From stdpp Require Import base option list gmap.

Set Default Proof Using "Type".

(** ** Numeric interfaces *)

(** The operations of [double] that the program uses.  [Dlt a b] is the C++
    test [a < b]; the test [a > b] is [Dlt b a]. *)
Class DoubleOps (D : Type) : Type := {
  D0 : D;                       (* the literal 0.0 *)
  D1 : D;                       (* the literal 1.0 *)
  D2 : D;                       (* the literal 2.  *)
  DPI : D;                      (* the macro M_PI  *)
  Dadd : D -> D -> D;
  Dsub : D -> D -> D;
  Dmul : D -> D -> D;
  Ddiv : D -> D -> D;
  Dneg : D -> D;
  Dsqrt : D -> D;
  Dlt : D -> D -> bool
}.

(** [cos] and [sin] of <cmath>. *)
Class Libm (D : Type) : Type := {
  Dcos : D -> D;
  Dsin : D -> D
}.

(** What the templates ask of their parameter [T]: conversion from [double]
    ([static_cast<T>(d)], [T(d)]), [+ - *], unary minus, the mixed product
    [double * T], and the comparison [<] ([a > b] is [Tlt b a]). *)
Class Scalar (D T : Type) : Type := {
  cast : D -> T;
  Tadd : T -> T -> T;
  Tsub : T -> T -> T;
  Tmul : T -> T -> T;
  Tneg : T -> T;
  Tscale : D -> T -> T;
  Tlt : T -> T -> bool
}.

(** The overloads [cos(T)] and [sin(T)] found by the template. *)
Class Trig (T : Type) : Type := {
  Tcos : T -> T;
  Tsin : T -> T
}.

(** [T = double]. *)
#[export] Instance Scalar_double {D} `{DoubleOps D} : Scalar D D := {|
  cast := fun d => d;
  Tadd := Dadd; Tsub := Dsub; Tmul := Dmul; Tneg := Dneg;
  Tscale := Dmul;
  Tlt := Dlt
|}.

#[export] Instance Trig_double {D} `{Libm D} : Trig D := {|
  Tcos := Dcos; Tsin := Dsin
|}.

(** *** binary64

    [M_PI] is the double nearest to pi.  <cmath>'s [cos] and [sin] have no
    counterpart among the kernel's operations, so there is no [Libm float]:
    statements about binary64 are about the code that does not call them,
    or hold whatever they return. *)

#[export] Instance DoubleOps_float : DoubleOps float := {|
  D0 := 0%float;
  D1 := 1%float;
  D2 := 2%float;
  DPI := 0x1.921fb54442d18p+1%float;
  Dadd := PrimFloat.add; Dsub := PrimFloat.sub;
  Dmul := PrimFloat.mul; Ddiv := PrimFloat.div;
  Dneg := PrimFloat.opp; Dsqrt := PrimFloat.sqrt;
  Dlt := PrimFloat.ltb
|}.

(** *** Real numbers

    Exact arithmetic: [M_PI] is read as [PI], [cos] and [sin] as the real
    functions, and a comparison decides the order of the reals. *)

Definition Rltb (a b : R) : bool := if Rlt_dec a b then true else false.

#[export] Instance DoubleOps_R : DoubleOps R := {|
  D0 := 0%R;
  D1 := 1%R;
  D2 := 2%R;
  DPI := PI;
  Dadd := Rplus; Dsub := Rminus;
  Dmul := Rmult; Ddiv := Rdiv;
  Dneg := Ropp; Dsqrt := R_sqrt.sqrt;
  Dlt := Rltb
|}.

#[export] Instance Libm_R : Libm R := {|
  Dcos := cos; Dsin := sin
|}.

(** ** Fixed-size vectors and matrices (Eigen) *)

(** Row and column indices of a 3-vector and of a 3x3 matrix. *)
Inductive Ix3 : Type := I0 | I1 | I2.

Record Vector3 (T : Type) : Type := mkVector3 { v0 : T; v1 : T; v2 : T }.
Arguments mkVector3 {T}.
Arguments v0 {T}.
Arguments v1 {T}.
Arguments v2 {T}.

(** Row-major 3x3 matrix; [coeff M i j] is [M(i, j)]. *)
Record Matrix3 (T : Type) : Type := mkMatrix3 {
  row0 : Vector3 T; row1 : Vector3 T; row2 : Vector3 T
}.
Arguments mkMatrix3 {T}.
Arguments row0 {T}.
Arguments row1 {T}.
Arguments row2 {T}.

Definition vcoeff {T} (v : Vector3 T) (i : Ix3) : T :=
  match i with I0 => v0 v | I1 => v1 v | I2 => v2 v end.

Definition mrow {T} (M : Matrix3 T) (i : Ix3) : Vector3 T :=
  match i with I0 => row0 M | I1 => row1 M | I2 => row2 M end.

Definition coeff {T} (M : Matrix3 T) (i j : Ix3) : T := vcoeff (mrow M i) j.

Definition vmap {A B} (f : A -> B) (v : Vector3 A) : Vector3 B :=
  mkVector3 (f (v0 v)) (f (v1 v)) (f (v2 v)).

(** [M.template cast<T>()]. *)
Definition mcast {A B} (f : A -> B) (M : Matrix3 A) : Matrix3 B :=
  mkMatrix3 (vmap f (row0 M)) (vmap f (row1 M)) (vmap f (row2 M)).

Section Eigen.
Context {D T : Type} `{Scalar D T}.

(** One coefficient of a matrix-vector product: the inner product of a
    row with the vector, summed left to right. *)
Definition dot3 (r v : Vector3 T) : T :=
  Tadd (Tadd (Tmul (v0 r) (v0 v)) (Tmul (v1 r) (v1 v))) (Tmul (v2 r) (v2 v)).

(** [M * v].  The product is evaluated into a temporary before it is
    assigned, so [v = M * v] reads the old [v] throughout. *)
Definition mat_vec (M : Matrix3 T) (v : Vector3 T) : Vector3 T :=
  mkVector3 (dot3 (row0 M) v) (dot3 (row1 M) v) (dot3 (row2 M) v).
End Eigen.

Section EigenDouble.
Context {D : Type} `{DoubleOps D}.

(** [Eigen::Matrix3d::Identity()]. *)
Definition Identity : Matrix3 D :=
  mkMatrix3 (mkVector3 D1 D0 D0) (mkVector3 D0 D1 D0) (mkVector3 D0 D0 D1).

(** [A.llt().matrixU()]: the upper-triangular factor [U] with
    [A = U^T U], obtained column by column from the lower triangle of
    [A] (each diagonal entry is the square root of what remains of
    [A(k,k)], the entries below it are divided by it). *)
Definition llt_matrixU (A : Matrix3 D) : Matrix3 D :=
  let l00 := Dsqrt (coeff A I0 I0) in
  let l10 := Ddiv (coeff A I1 I0) l00 in
  let l20 := Ddiv (coeff A I2 I0) l00 in
  let l11 := Dsqrt (Dsub (coeff A I1 I1) (Dmul l10 l10)) in
  let l21 := Ddiv (Dsub (coeff A I2 I1) (Dmul l20 l10)) l11 in
  let l22 := Dsqrt (Dsub (coeff A I2 I2) (Dadd (Dmul l20 l20) (Dmul l21 l21))) in
  mkMatrix3 (mkVector3 l00 l10 l20) (mkVector3 D0 l11 l21) (mkVector3 D0 D0 l22).
End EigenDouble.

(** ** Poses and constraints *)

Record Vector2d (D : Type) : Type := mkVector2d { x : D; y : D }.
Arguments mkVector2d {D}.
Arguments x {D}.
Arguments y {D}.

Record Rotation2Dd (D : Type) : Type := mkRotation2Dd { angle : D }.
Arguments mkRotation2Dd {D}.
Arguments angle {D}.

Record Pose (D : Type) : Type := mkPose {
  translation : Vector2d D;
  rotation : Rotation2Dd D
}.
Arguments mkPose {D}.
Arguments translation {D}.
Arguments rotation {D}.

Record Constraint (D : Type) : Type := mkConstraint {
  source : Z;
  target : Z;
  relative_pose : Pose D
}.
Arguments mkConstraint {D}.
Arguments source {D}.
Arguments target {D}.
Arguments relative_pose {D}.

(** ** NormalizeAngleDifference *)

Section Normalize.
Context {D T : Type} `{DoubleOps D} `{Scalar D T}.

(** [const T kPi = T(M_PI)]. *)
Definition kPi : T := cast DPI.

(** [2. * kPi]. *)
Definition two_kPi : T := Tscale D2 kPi.

(** [while (difference > kPi) difference -= 2. * kPi;]
    [None] when the loop is still running after [fuel] tests. *)
Fixpoint while_gt (fuel : nat) (difference : T) : option T :=
  match fuel with
  | O => None
  | S fuel' =>
      if Tlt kPi difference
      then while_gt fuel' (Tsub difference two_kPi)
      else Some difference
  end.

(** [while (difference < -kPi) difference += 2. * kPi;] *)
Fixpoint while_lt (fuel : nat) (difference : T) : option T :=
  match fuel with
  | O => None
  | S fuel' =>
      if Tlt difference (Tneg kPi)
      then while_lt fuel' (Tadd difference two_kPi)
      else Some difference
  end.

Definition NormalizeAngleDifference (fuel : nat) (difference : T) : option T :=
  match while_gt fuel difference with
  | Some d => while_lt fuel d
  | None => None
  end.
End Normalize.

(** A number of loop tests that suffices for the real input [d]: one more than the integer
    above [|d|]. *)
Definition enough_fuel (d : R) : nat := S (Z.to_nat (up (Rabs d))).

(** ** SpaCostFunctor *)

Module SpaCostFunctor.
Record t (D : Type) : Type := mk {
  x_ : D; y_ : D; theta_ : D;
  sqrt_information_ : Matrix3 D
}.
Arguments mk {D}.
Arguments x_ {D}.
Arguments y_ {D}.
Arguments theta_ {D}.
Arguments sqrt_information_ {D}.

(** The constructor.  The C++ member [sqrt_information_] is a reference
    to the caller's matrix, which [Optimize] never changes after it has
    been computed, so the functor sees the value given here. *)
Definition make {D} (observed : Pose D) (sqrt_information : Matrix3 D) : t D :=
  mk (x (translation observed)) (y (translation observed))
     (angle (rotation observed)) sqrt_information.

Section Call.
Context {D T : Type} `{DoubleOps D} `{Scalar D T} `{Trig T}.

(** [operator()]: the residual written through [residual], or [None]
    when the angle normalisation has not finished within [fuel]. *)
Definition call (self : t D) (fuel : nat)
    (source_x source_y source_theta target_x target_y target_theta : T)
    : option (Vector3 T) :=
  let source_cos := Tcos source_theta in
  let source_sin := Tsin source_theta in
  let delta_x := Tsub target_x source_x in
  let delta_y := Tsub target_y source_y in
  let r0 := Tsub (cast (x_ self))
                 (Tadd (Tmul source_cos delta_x) (Tmul source_sin delta_y)) in
  let r1 := Tsub (cast (y_ self))
                 (Tsub (Tmul source_cos delta_y) (Tmul source_sin delta_x)) in
  match NormalizeAngleDifference fuel
          (Tsub (cast (theta_ self)) (Tsub target_theta source_theta)) with
  | None => None
  | Some r2 =>
      Some (mat_vec (mcast cast (sqrt_information_ self)) (mkVector3 r0 r1 r2))
  end.
End Call.
End SpaCostFunctor.


(** ** SpaCostFunctorAnalytic *)

(** The six parameter blocks, each of size one: [parameters[k][0]]. *)
Record Parameters (D : Type) : Type := mkParameters {
  source_x : D; source_y : D; source_theta : D;
  target_x : D; target_y : D; target_theta : D
}.
Arguments mkParameters {D}.
Arguments source_x {D}.
Arguments source_y {D}.
Arguments source_theta {D}.
Arguments target_x {D}.
Arguments target_y {D}.
Arguments target_theta {D}.

(** The array [jacobians] as the caller passes it: which of the six
    pointers [jacobians[0..5]] are non-null. *)
Record Request : Type := mkRequest {
  want_source_x : bool; want_source_y : bool; want_source_theta : bool;
  want_target_x : bool; want_target_y : bool; want_target_theta : bool
}.

(** What [Evaluate] has written through [jacobians[0..5]]: one column of
    three rows per requested block, [None] for a block it did not touch. *)
Record Jacobians (D : Type) : Type := mkJacobians {
  jacobian_source_x : option (Vector3 D);
  jacobian_source_y : option (Vector3 D);
  jacobian_source_theta : option (Vector3 D);
  jacobian_target_x : option (Vector3 D);
  jacobian_target_y : option (Vector3 D);
  jacobian_target_theta : option (Vector3 D)
}.
Arguments mkJacobians {D}.
Arguments jacobian_source_x {D}.
Arguments jacobian_source_y {D}.
Arguments jacobian_source_theta {D}.
Arguments jacobian_target_x {D}.
Arguments jacobian_target_y {D}.
Arguments jacobian_target_theta {D}.

Module SpaCostFunctorAnalytic.
Record t (D : Type) : Type := mk {
  x_ : D; y_ : D; theta_ : D;
  sqrt_information_ : Matrix3 D
}.
Arguments mk {D}.
Arguments x_ {D}.
Arguments y_ {D}.
Arguments theta_ {D}.
Arguments sqrt_information_ {D}.

Definition make {D} (observed : Pose D) (sqrt_information : Matrix3 D) : t D :=
  mk (x (translation observed)) (y (translation observed))
     (angle (rotation observed)) sqrt_information.

Section Evaluate.
Context {D : Type} `{DoubleOps D} `{Libm D}.

(** Lines 74-84: the residual. *)
Definition residuals (self : t D) (fuel : nat) (parameters : Parameters D)
    : option (Vector3 D) :=
  let cos_source_theta := Dcos (source_theta parameters) in
  let sin_source_theta := Dsin (source_theta parameters) in
  let dx := Dsub (target_x parameters) (source_x parameters) in
  let dy := Dsub (target_y parameters) (source_y parameters) in
  let r0 := Dsub (x_ self)
                 (Dadd (Dmul cos_source_theta dx) (Dmul sin_source_theta dy)) in
  let r1 := Dsub (y_ self)
                 (Dsub (Dmul cos_source_theta dy) (Dmul sin_source_theta dx)) in
  match NormalizeAngleDifference (T := D) fuel
          (Dsub (theta_ self)
                (Dsub (target_theta parameters) (source_theta parameters))) with
  | None => None
  | Some r2 => Some (mat_vec (sqrt_information_ self) (mkVector3 r0 r1 r2))
  end.

(** Lines 88-160: the columns written for a non-null [jacobians]. *)
Definition fill_jacobians (self : t D) (parameters : Parameters D)
    (jacobians : Request) : Jacobians D :=
  let S := coeff (sqrt_information_ self) in
  let cos_source_theta := Dcos (source_theta parameters) in
  let sin_source_theta := Dsin (source_theta parameters) in
  let dx := Dsub (target_x parameters) (source_x parameters) in
  let dy := Dsub (target_y parameters) (source_y parameters) in
  let unweighted_jacobians_02 :=
    Dsub (Dmul sin_source_theta dx) (Dmul cos_source_theta dy) in
  let unweighted_jacobians_12 :=
    Dadd (Dmul cos_source_theta dx) (Dmul sin_source_theta dy) in
  let jsx :=
    if want_source_x jacobians then
      Some (mkVector3
        (Dsub (Dmul (S I0 I0) cos_source_theta) (Dmul (S I0 I1) sin_source_theta))
        (Dsub (Dmul (S I1 I0) cos_source_theta) (Dmul (S I1 I1) sin_source_theta))
        (Dsub (Dmul (S I2 I0) cos_source_theta) (Dmul (S I2 I1) sin_source_theta)))
    else None in
  let jsy :=
    if want_source_y jacobians then
      Some (mkVector3
        (Dadd (Dmul (S I0 I0) sin_source_theta) (Dmul (S I0 I1) cos_source_theta))
        (Dadd (Dmul (S I1 I0) sin_source_theta) (Dmul (S I1 I1) cos_source_theta))
        (Dadd (Dmul (S I2 I0) sin_source_theta) (Dmul (S I2 I2) cos_source_theta)))
    else None in
  let jst :=
    if want_source_theta jacobians then
      Some (mkVector3
        (Dadd (Dmul (S I0 I0) unweighted_jacobians_02)
              (Dmul (S I0 I1) unweighted_jacobians_12))
        (Dadd (Dmul (S I1 I0) unweighted_jacobians_02)
              (Dmul (S I1 I1) unweighted_jacobians_12))
        (Dadd (Dmul (S I2 I0) unweighted_jacobians_02)
              (Dmul (S I2 I1) unweighted_jacobians_12)))
    else None in
  let jtx :=
    if want_target_x jacobians then
      Some (match jsx with
            | Some sx => mkVector3 (Dneg (v0 sx)) (Dneg (v1 sx)) (Dneg (v2 sx))
            | None =>
                mkVector3
                  (Dsub (Dmul (S I0 I1) sin_source_theta) (Dmul (S I0 I0) cos_source_theta))
                  (Dsub (Dmul (S I1 I1) sin_source_theta) (Dmul (S I1 I0) cos_source_theta))
                  (Dsub (Dmul (S I2 I1) sin_source_theta) (Dmul (S I2 I0) cos_source_theta))
            end)
    else None in
  let jty :=
    if want_target_y jacobians then
      Some (match jsy with
            | Some sy => mkVector3 (Dneg (v0 sy)) (Dneg (v1 sy)) (Dneg (v2 sy))
            | None =>
                mkVector3
                  (Dsub (Dmul (Dneg (S I0 I0)) sin_source_theta)
                        (Dmul (S I0 I1) cos_source_theta))
                  (Dsub (Dmul (Dneg (S I1 I0)) sin_source_theta)
                        (Dmul (S I1 I1) cos_source_theta))
                  (Dsub (Dmul (Dneg (S I2 I0)) sin_source_theta)
                        (Dmul (S I2 I1) cos_source_theta))
            end)
    else None in
  let jtt :=
    if want_target_theta jacobians then
      Some (mkVector3 (Dneg (S I0 I2)) (Dneg (S I1 I2)) (Dneg (S I2 I2)))
    else None in
  mkJacobians jsx jsy jst jtx jty jtt.

(** [Evaluate(parameters, residuals, jacobians)].  [jacobians = None] is
    the null pointer of line 86.  The result is [None] when the angle
    normalisation has not finished within [fuel]; the C++ return value is
    always [true] and is left out. *)
Definition Evaluate (self : t D) (fuel : nat) (parameters : Parameters D)
    (jacobians : option Request) : option (Vector3 D * option (Jacobians D)) :=
  match residuals self fuel parameters with
  | None => None
  | Some r =>
      match jacobians with
      | None => Some (r, None)
      | Some req => Some (r, Some (fill_jacobians self parameters req))
      end
  end.
End Evaluate.
End SpaCostFunctorAnalytic.


(** ** Jets: the type [T] of automatic differentiation *)

(** [ceres::Jet<double, N>]: a value [a] and its partial derivatives [v].
    The autodiff cost function calls the functor at [T = double] when no
    Jacobian is asked for and at [T = Jet] otherwise; the residual it
    reports is then the [a] part of what the functor wrote. *)
Record Jet (D : Type) : Type := mkJet { a : D; v : list D }.
Arguments mkJet {D}.
Arguments a {D}.
Arguments v {D}.

Section JetOps.
Context {D : Type} `{DoubleOps D} `{Libm D}.

(** Number of partial derivatives carried: the six scalar parameters. *)
Definition kJetSize : nat := 6.

Definition vzip (f : D -> D -> D) (u w : list D) : list D :=
  map (fun p => f (fst p) (snd p)) (combine u w).

Definition Jet_cast (d : D) : Jet D := mkJet d (repeat D0 kJetSize).
Definition Jet_add (f g : Jet D) : Jet D := mkJet (Dadd (a f) (a g)) (vzip Dadd (v f) (v g)).
Definition Jet_sub (f g : Jet D) : Jet D := mkJet (Dsub (a f) (a g)) (vzip Dsub (v f) (v g)).
Definition Jet_mul (f g : Jet D) : Jet D :=
  mkJet (Dmul (a f) (a g))
        (vzip Dadd (map (Dmul (a f)) (v g)) (map (fun d => Dmul d (a g)) (v f))).
Definition Jet_neg (f : Jet D) : Jet D := mkJet (Dneg (a f)) (map Dneg (v f)).
Definition Jet_scale (s : D) (f : Jet D) : Jet D :=
  mkJet (Dmul s (a f)) (map (Dmul s) (v f)).
(** Jets compare by their values. *)
Definition Jet_lt (f g : Jet D) : bool := Dlt (a f) (a g).
Definition Jet_cos (f : Jet D) : Jet D :=
  mkJet (Dcos (a f)) (map (Dmul (Dneg (Dsin (a f)))) (v f)).
Definition Jet_sin (f : Jet D) : Jet D :=
  mkJet (Dsin (a f)) (map (Dmul (Dcos (a f))) (v f)).
End JetOps.

#[export] Instance Scalar_Jet {D} `{DoubleOps D} `{Libm D} : Scalar D (Jet D) := {|
  cast := Jet_cast;
  Tadd := Jet_add; Tsub := Jet_sub; Tmul := Jet_mul; Tneg := Jet_neg;
  Tscale := Jet_scale;
  Tlt := Jet_lt
|}.

#[export] Instance Trig_Jet {D} `{DoubleOps D} `{Libm D} : Trig (Jet D) := {|
  Tcos := Jet_cos; Tsin := Jet_sin
|}.

(** ** The formulas of sections 4.1 and 4.2 *)

Section SpecResidual.
Context {D : Type} `{DoubleOps D} `{Libm D}.

(** The unwhitened residual of section 4.1, given the normalised angle
    difference [n]: [[x̄ - predicted_x, ȳ - predicted_y, n]]. *)
Definition spec_unwhitened (observed : Pose D) (p : Parameters D) (n : D) : Vector3 D :=
  let dx := Dsub (target_x p) (source_x p) in
  let dy := Dsub (target_y p) (source_y p) in
  let predicted_x :=
    Dadd (Dmul (Dcos (source_theta p)) dx) (Dmul (Dsin (source_theta p)) dy) in
  let predicted_y :=
    Dsub (Dmul (Dcos (source_theta p)) dy) (Dmul (Dsin (source_theta p)) dx) in
  mkVector3 (Dsub (x (translation observed)) predicted_x)
            (Dsub (y (translation observed)) predicted_y)
            n.

(** The argument handed to [normalize_angle]: [θ̄ - predicted_θ]. *)
Definition spec_angle_error (observed : Pose D) (p : Parameters D) : D :=
  Dsub (angle (rotation observed)) (Dsub (target_theta p) (source_theta p)).

(** [whitened_r = sqrt_information * r], coefficient by coefficient. *)
Definition spec_whiten (S : Matrix3 D) (r : Vector3 D) : Vector3 D :=
  let row i :=
    Dadd (Dadd (Dmul (coeff S i I0) (vcoeff r I0)) (Dmul (coeff S i I1) (vcoeff r I1)))
         (Dmul (coeff S i I2) (vcoeff r I2)) in
  mkVector3 (row I0) (row I1) (row I2).

(** The shape the two evaluators share: the whitened vector built on
    whatever the code's own [NormalizeAngleDifference] returns within
    [fuel] tests, and [None] while it has not returned.  This is a common
    form for the proofs, not the specification's [normalize_angle] (for
    that see [spec_normalize_angle]). *)
Definition residual_with_normalizer (S : Matrix3 D) (observed : Pose D) (fuel : nat)
    (p : Parameters D) : option (Vector3 D) :=
  match NormalizeAngleDifference (T := D) fuel (spec_angle_error observed p) with
  | Some n => Some (spec_whiten S (spec_unwhitened observed p n))
  | None => None
  end.

(** The source-position columns of section 4.2, row [i]. *)
Definition spec_d_source_x (S : Matrix3 D) (theta_s : D) (i : Ix3) : D :=
  Dsub (Dmul (coeff S i I0) (Dcos theta_s)) (Dmul (coeff S i I1) (Dsin theta_s)).

Definition spec_d_source_y (S : Matrix3 D) (theta_s : D) (i : Ix3) : D :=
  Dadd (Dmul (coeff S i I0) (Dsin theta_s)) (Dmul (coeff S i I1) (Dcos theta_s)).
End SpecResidual.


(** ** Problem assembly: [Optimize] *)

(** The three scalars of a pose whose addresses are handed to the solver:
    [&p.translation.x()], [&p.translation.y()], [&p.rotation.angle()]. *)
Inductive Field : Type := FieldX | FieldY | FieldAngle.

#[export] Instance Field_eq_dec : EqDecision Field.
Proof. solve_decision. Defined.

(** A parameter block: the address of one scalar of the pose stored under
    a key of the map. *)
Definition ParamRef : Type := Z * Field.

Definition read_field {D} (f : Field) (p : Pose D) : D :=
  match f with
  | FieldX => x (translation p)
  | FieldY => y (translation p)
  | FieldAngle => angle (rotation p)
  end.

Definition write_field {D} (f : Field) (d : D) (p : Pose D) : Pose D :=
  match f with
  | FieldX => mkPose (mkVector2d d (y (translation p))) (rotation p)
  | FieldY => mkPose (mkVector2d (x (translation p)) d) (rotation p)
  | FieldAngle => mkPose (translation p) (mkRotation2Dd d)
  end.

(** The six parameter blocks of a residual block, in the order of the
    call: source x, y, angle, then target x, y, angle. *)
Definition pose_blocks (id : Z) : list ParamRef :=
  [(id, FieldX); (id, FieldY); (id, FieldAngle)].

Inductive CostFunction (D : Type) : Type :=
| AnalyticCost (f : SpaCostFunctorAnalytic.t D)
| AutoDiffCost (f : SpaCostFunctor.t D).
Arguments AnalyticCost {D}.
Arguments AutoDiffCost {D}.

(** [new ceres::HuberLoss(a)]. *)
Inductive LossFunction (D : Type) : Type :=
| HuberLoss (scale : D).
Arguments HuberLoss {D}.

Record ResidualBlock (D : Type) : Type := mkResidualBlock {
  cost_function : CostFunction D;
  loss_function : LossFunction D;
  parameter_blocks : list ParamRef
}.
Arguments mkResidualBlock {D}.
Arguments cost_function {D}.
Arguments loss_function {D}.
Arguments parameter_blocks {D}.

(** What a [ceres::Problem] has been told: the residual blocks in the
    order they were added, and the blocks set constant. *)
Record Problem (D : Type) : Type := mkProblem {
  residual_blocks : list (ResidualBlock D);
  constant_blocks : list ParamRef
}.
Arguments mkProblem {D}.
Arguments residual_blocks {D}.
Arguments constant_blocks {D}.

Definition AddResidualBlock {D} (b : ResidualBlock D) (problem : Problem D) : Problem D :=
  mkProblem (residual_blocks problem ++ [b]) (constant_blocks problem).

Definition SetParameterBlockConstant {D} (p : ParamRef) (problem : Problem D) : Problem D :=
  mkProblem (residual_blocks problem) (constant_blocks problem ++ [p]).

(** The matrix a cost function whitens its residual with. *)
Definition whitening {D} (c : CostFunction D) : Matrix3 D :=
  match c with
  | AnalyticCost f => SpaCostFunctorAnalytic.sqrt_information_ f
  | AutoDiffCost f => SpaCostFunctor.sqrt_information_ f
  end.

(** The library calls [Optimize] makes, in program order. *)
Inductive Call (D : Type) : Type :=
| CallLLT (information_matrix : Matrix3 D)
| CallAddResidualBlock (b : ResidualBlock D)
| CallSetParameterBlockConstant (p : ParamRef)
| CallSolve (problem : Problem D).
Arguments CallLLT {D}.
Arguments CallAddResidualBlock {D}.
Arguments CallSetParameterBlockConstant {D}.
Arguments CallSolve {D}.

Definition is_llt {D} (c : Call D) : bool :=
  match c with CallLLT _ => true | _ => false end.

Definition is_solve {D} (c : Call D) : bool :=
  match c with CallSolve _ => true | _ => false end.

(** [ceres::Solver::Summary], as far as the program reads it with
    [verbose] and [print_output] both fixed to [false]. *)
Record Summary (D : Type) : Type := mkSummary { total_time_in_seconds : D }.
Arguments mkSummary {D}.
Arguments total_time_in_seconds {D}.

(** The state [Optimize] threads through its statements. *)
Record OptState (D : Type) : Type := mkOptState {
  st_poses : gmap Z (Pose D);
  st_problem : Problem D;
  st_calls : list (Call D)
}.
Arguments mkOptState {D}.
Arguments st_poses {D}.
Arguments st_problem {D}.
Arguments st_calls {D}.

Section Optimize.
Context {D : Type} `{DoubleOps D}.

(** A value-initialised [Pose], which [std::map::operator[]] stores under a
    key that was absent. *)
Definition Pose_value_init : Pose D :=
  mkPose (mkVector2d D0 D0) (mkRotation2Dd D0).

(** [poses[k]] used for its reference: the map afterwards.  An absent key
    is inserted, a present one leaves the map as it is. *)
Definition map_subscript (poses : gmap Z (Pose D)) (k : Z) : gmap Z (Pose D) :=
  match poses !! k with
  | Some _ => poses
  | None => <[k := Pose_value_init]> poses
  end.

(** The residual block of lines 181-195: the cost function chosen by
    [use_analytic_cost], a Huber loss of scale [1.0], and the addresses of
    the six scalars of the source and target poses. *)
Definition residual_block_for (use_analytic_cost : bool) (sqrt_information : Matrix3 D)
    (constraint : Constraint D) : ResidualBlock D :=
  let cost :=
    if use_analytic_cost
    then AnalyticCost (SpaCostFunctorAnalytic.make (relative_pose constraint) sqrt_information)
    else AutoDiffCost (SpaCostFunctor.make (relative_pose constraint) sqrt_information) in
  mkResidualBlock cost (HuberLoss D1)
    (pose_blocks (source constraint) ++ pose_blocks (target constraint)).

(** The body of the loop of lines 177-197 for one constraint. *)
Definition add_constraint (use_analytic_cost : bool) (sqrt_information : Matrix3 D)
    (st : OptState D) (constraint : Constraint D) : OptState D :=
  let poses1 := map_subscript (st_poses st) (source constraint) in
  let poses2 := map_subscript poses1 (target constraint) in
  let block := residual_block_for use_analytic_cost sqrt_information constraint in
  mkOptState poses2 (AddResidualBlock block (st_problem st))
             (st_calls st ++ [CallAddResidualBlock block]).

(** Lines 173-201: everything [Optimize] does before it calls the solver. *)
Definition assemble (constraints : list (Constraint D)) (poses : gmap Z (Pose D))
    (use_analytic_cost : bool) : OptState D :=
  let information_matrix := Identity in
  let sqrt_information := llt_matrixU information_matrix in
  let st0 := mkOptState poses (mkProblem [] []) [CallLLT information_matrix] in
  let st1 := fold_left (add_constraint use_analytic_cost sqrt_information) constraints st0 in
  let poses2 := map_subscript (st_poses st1) 0 in
  let problem2 :=
    SetParameterBlockConstant (0%Z, FieldAngle)
      (SetParameterBlockConstant (0%Z, FieldY)
        (SetParameterBlockConstant (0%Z, FieldX) (st_problem st1))) in
  mkOptState poses2 problem2
    (st_calls st1 ++ map CallSetParameterBlockConstant (pose_blocks 0)).

(** [ceres::Solve] with the options of lines 202-204: it is given the
    problem and the scalars the parameter blocks point into, and leaves
    them updated.  The solver is not part of this program. *)
Variable Solve : Problem D -> gmap Z (Pose D) -> gmap Z (Pose D) * Summary D.

(** [Optimize(constraints, poses, use_analytic_cost)]: the returned time,
    the map [poses] as the call leaves it, and the library calls made. *)
Definition Optimize (constraints : list (Constraint D)) (poses : gmap Z (Pose D))
    (use_analytic_cost : bool) : D * gmap Z (Pose D) * list (Call D) :=
  let st := assemble constraints poses use_analytic_cost in
  let solved := Solve (st_problem st) (st_poses st) in
  (total_time_in_seconds (snd solved), fst solved,
   st_calls st ++ [CallSolve (st_problem st)]).
End Optimize.

(** The contract the program relies on when it sets a block constant: the
    solver does not write through a constant block, so the scalar such a
    block points to reads the same after the call as before it. *)
Definition keeps_constant_blocks {D}
    (Solve : Problem D -> gmap Z (Pose D) -> gmap Z (Pose D) * Summary D) : Prop :=
  forall (problem : Problem D) (poses : gmap Z (Pose D)) (id : Z) (f : Field),
    (id, f) ∈ constant_blocks problem ->
    read_field f <$> (fst (Solve problem poses) !! id) = read_field f <$> (poses !! id).

(** A solver to run the model with: it sets every scalar that is not held
    constant to zero and reports zero time. *)
Definition reset_pose {D} `{DoubleOps D} (problem : Problem D) (id : Z) (p : Pose D) : Pose D :=
  foldr (fun f q =>
           if bool_decide ((id, f) ∈ constant_blocks problem) then q
           else write_field f D0 q)
        p [FieldX; FieldY; FieldAngle].

Definition Solve_reset {D} `{DoubleOps D} (problem : Problem D)
    (poses : gmap Z (Pose D)) : gmap Z (Pose D) * Summary D :=
  (map_imap (fun id p => Some (reset_pose problem id p)) poses, mkSummary D0).

(** ** [run]: the triangle of three poses *)

(* The decimal literals of [run] are rounded to binary64 as the compiler
   rounds them. *)
#[local] Set Warnings "-inexact-float".

Definition run_constraints : list (Constraint float) :=
  [ mkConstraint 0%Z 1%Z
      (mkPose (mkVector2d 4.0%float 0.0%float) (mkRotation2Dd (Ddiv DPI 2%float)))
  ; mkConstraint 1%Z 2%Z
      (mkPose (mkVector2d 4.0%float 4.0%float) (mkRotation2Dd DPI))
  ; mkConstraint 2%Z 0%Z
      (mkPose (mkVector2d 4.0%float 0.0%float) (mkRotation2Dd (Ddiv DPI 2%float))) ].

Definition run_poses : gmap Z (Pose float) :=
  <[2%Z := mkPose (mkVector2d (-0.5)%float 4.4%float) (mkRotation2Dd (-1.3708)%float)]>
  (<[1%Z := mkPose (mkVector2d 4.3%float (-0.2)%float) (mkRotation2Dd 1.4208%float)]>
  (<[0%Z := mkPose (mkVector2d 0.0%float 0.0%float) (mkRotation2Dd 0.0%float)]> ∅)).

Definition run (Solve : Problem float -> gmap Z (Pose float) -> gmap Z (Pose float) * Summary float)
    (use_anayltic_cost : bool) : float :=
  fst (fst (Optimize Solve run_constraints run_poses use_anayltic_cost)).

(** ** Concrete inputs *)

(** The first residual block of [run], constraint [0 -> 1], at the initial
    poses, read over the real numbers: observation [(4, 0, pi/2)], source
    [p0 = (0, 0, 0)], target [p1 = (4.3, -0.2, 1.4208)]. *)
Definition observed_01 : Pose R :=
  mkPose (mkVector2d 4%R 0%R) (mkRotation2Dd (PI / 2)%R).

Definition parameters_01 : Parameters R :=
  mkParameters 0%R 0%R 0%R 4.3%R (-0.2)%R 1.4208%R.

(** The analytic cost function [Optimize] builds for that constraint. *)
Definition analytic_01 : SpaCostFunctorAnalytic.t R :=
  SpaCostFunctorAnalytic.make observed_01 (llt_matrixU Identity).

(** All six columns requested, and the requests that leave some out. *)
Definition request_all : Request := mkRequest true true true true true true.
Definition request_source_y : Request := mkRequest false true false false false false.
Definition request_target_y : Request := mkRequest false false false false true false.
Definition request_both_y : Request := mkRequest false true false false true false.

(** A finite [double] too large for the subtraction of [2 pi] to change. *)
Definition big_angle : float := 1e17%float.

(** An observation whose angle is [big_angle], between two poses at the
    origin. *)
Definition observed_big : Pose float :=
  mkPose (mkVector2d 0%float 0%float) (mkRotation2Dd big_angle).

Definition parameters_origin : Parameters float :=
  mkParameters 0%float 0%float 0%float 0%float 0%float 0%float.

(** [p] with its source position moved by [(hx, hy)]. *)
Definition move_source (hx hy : R) (p : Parameters R) : Parameters R :=
  mkParameters (source_x p + hx)%R (source_y p + hy)%R (source_theta p)
               (target_x p) (target_y p) (target_theta p).

(** A constraint from pose [0] to a pose id that [run_poses] lacks. *)
Definition constraint_05 : Constraint float :=
  mkConstraint 0%Z 5%Z (mkPose (mkVector2d 4.0%float 0.0%float) (mkRotation2Dd DPI)).

(** The pose ids [Optimize] subscripts the map with: source and target of
    every constraint, and the anchor [0]. *)
Definition referenced_ids {D} (constraints : list (Constraint D)) : list Z :=
  flat_map (fun c => [source c; target c]) constraints ++ [0%Z].

(** ** Moving the poses of a residual block *)

(** [p] with its target position moved by [(hx, hy)]. *)
Definition move_target (hx hy : R) (p : Parameters R) : Parameters R :=
  mkParameters (source_x p) (source_y p) (source_theta p)
               (target_x p + hx)%R (target_y p + hy)%R (target_theta p).

(** [p] with its target, or its source, turned by [h]. *)
Definition turn_target (h : R) (p : Parameters R) : Parameters R :=
  mkParameters (source_x p) (source_y p) (source_theta p)
               (target_x p) (target_y p) (target_theta p + h)%R.

Definition turn_source (h : R) (p : Parameters R) : Parameters R :=
  mkParameters (source_x p) (source_y p) (source_theta p + h)%R
               (target_x p) (target_y p) (target_theta p).

(** The six parameters of a residual block bound to two poses. *)
Definition parameters_of {D} (source_pose target_pose : Pose D) : Parameters D :=
  mkParameters
    (x (translation source_pose)) (y (translation source_pose))
    (angle (rotation source_pose))
    (x (translation target_pose)) (y (translation target_pose))
    (angle (rotation target_pose)).

(** The pose reached from [base] by the relative pose [rel], expressed in
    the frame of [base]. *)
Definition compose_pose (base rel : Pose R) : Pose R :=
  let c := cos (angle (rotation base)) in
  let s := sin (angle (rotation base)) in
  mkPose
    (mkVector2d
       (x (translation base) + (c * x (translation rel) - s * y (translation rel)))%R
       (y (translation base) + (s * x (translation rel) + c * y (translation rel)))%R)
    (mkRotation2Dd (angle (rotation base) + angle (rotation rel))%R).

(** A rigid motion of the plane, by the angle [phi] and then the
    translation [(tx, ty)], applied to a pose. *)
Definition rigid_motion (tx ty phi : R) (q : Pose R) : Pose R :=
  mkPose
    (mkVector2d
       (tx + (cos phi * x (translation q) - sin phi * y (translation q)))%R
       (ty + (sin phi * x (translation q) + cos phi * y (translation q)))%R)
    (mkRotation2Dd (angle (rotation q) + phi)%R).

(** The identity pose and a block of six zero parameters. *)
Definition pose_zero : Pose R := mkPose (mkVector2d 0%R 0%R) (mkRotation2Dd 0%R).
Definition parameters_zero : Parameters R := mkParameters 0%R 0%R 0%R 0%R 0%R 0%R.

(** ** Seeding the jets *)

(** The derivative part of the [k]-th of the six parameters: one at
    position [k], zero elsewhere. *)
Definition unit_seed (k : nat) : list R :=
  map (fun i => if Nat.eqb i k then 1%R else 0%R) (seq 0 kJetSize).

(** The value [d] as the [k]-th independent variable. *)
Definition jet_of (d : R) (k : nat) : Jet R := mkJet d (unit_seed k).

(** [operator()] called the way automatic differentiation calls it: every
    parameter a jet seeded with its own unit vector. *)
Definition autodiff_call (self : SpaCostFunctor.t R) (fuel : nat) (p : Parameters R)
    : option (Vector3 (Jet R)) :=
  SpaCostFunctor.call (T := Jet R) self fuel
    (jet_of (source_x p) 0) (jet_of (source_y p) 1) (jet_of (source_theta p) 2)
    (jet_of (target_x p) 3) (jet_of (target_y p) 4) (jet_of (target_theta p) 5).

(** ** Evaluating a cost function of the problem *)

(** The residual the solver obtains from a cost function when it asks for
    no Jacobian: [Evaluate] with null [jacobians] for the analytic cost
    function, the functor at [T = double] for the autodiff one. *)
Definition cost_residual {D} `{DoubleOps D} `{Libm D} (c : CostFunction D)
    (fuel : nat) (p : Parameters D) : option (Vector3 D) :=
  match c with
  | AnalyticCost f => fst <$> SpaCostFunctorAnalytic.Evaluate f fuel p None
  | AutoDiffCost f =>
      SpaCostFunctor.call (T := D) f fuel
        (source_x p) (source_y p) (source_theta p)
        (target_x p) (target_y p) (target_theta p)
  end.

(** ** [normalize_angle] *)

(** [normalize_angle] as section 4.1 words it: [n] is the angle [d]
    wrapped into the half-open interval [(- PI, PI]] by adding or
    subtracting whole turns. *)
Definition spec_normalize_angle (d n : R) : Prop :=
  (- PI < n <= PI)%R /\ exists k : Z, n = (d + 2 * PI * IZR k)%R.

(** The wrap into the closed interval [[- PI, PI]] by whole turns that
    leaves an angle already in the interval (either end included) as it
    is, brings an angle above [PI] to [(- PI, PI]] and one below [- PI] to
    [[- PI, PI)]. *)
Definition wraps_closed (d n : R) : Prop :=
  (- PI <= n <= PI)%R /\
  (exists k : Z, n = (d + 2 * PI * IZR k)%R) /\
  ((- PI <= d <= PI)%R -> n = d) /\
  ((PI < d)%R -> (- PI < n)%R) /\
  ((d < - PI)%R -> (n < PI)%R).

(** An observed half turn clockwise between two poses at the origin. *)
Definition observed_minus_pi : Pose R :=
  mkPose (mkVector2d 0%R 0%R) (mkRotation2Dd (- PI)%R).

(** Requests for one [x] column alone. *)
Definition request_source_x : Request := mkRequest true false false false false false.
Definition request_target_x : Request := mkRequest false false false true false false.

(** * Properties *)

(** ** The normalisation loops, for every [T] *)

Section LoopFacts.
Context {D T : Type} `{DoubleOps D} `{Scalar D T}.

Lemma while_gt_unfold (fuel : nat) (d : T) :
  while_gt (S fuel) d =
  if Tlt kPi d then while_gt fuel (Tsub d two_kPi) else Some d.
Proof. reflexivity. Qed.

Lemma while_lt_unfold (fuel : nat) (d : T) :
  while_lt (S fuel) d =
  if Tlt d (Tneg kPi) then while_lt fuel (Tadd d two_kPi) else Some d.
Proof. reflexivity. Qed.

(** More fuel never changes a result already reached. *)
Lemma while_gt_mono (fuel fuel' : nat) (d r : T) :
  while_gt fuel d = Some r -> fuel <= fuel' -> while_gt fuel' d = Some r.
Proof.
  revert fuel' d. induction fuel as [|n IH]; intros fuel' d Hr Hle.
  - discriminate.
  - destruct fuel' as [|m]; [lia|].
    rewrite while_gt_unfold in Hr |- *.
    destruct (Tlt kPi d); [|exact Hr].
    apply IH; [exact Hr | lia].
Qed.

Lemma while_lt_mono (fuel fuel' : nat) (d r : T) :
  while_lt fuel d = Some r -> fuel <= fuel' -> while_lt fuel' d = Some r.
Proof.
  revert fuel' d. induction fuel as [|n IH]; intros fuel' d Hr Hle.
  - discriminate.
  - destruct fuel' as [|m]; [lia|].
    rewrite while_lt_unfold in Hr |- *.
    destruct (Tlt d (Tneg kPi)); [|exact Hr].
    apply IH; [exact Hr | lia].
Qed.

Lemma NormalizeAngleDifference_mono (fuel fuel' : nat) (d r : T) :
  NormalizeAngleDifference fuel d = Some r -> fuel <= fuel' ->
  NormalizeAngleDifference fuel' d = Some r.
Proof.
  unfold NormalizeAngleDifference. intros Hr Hle.
  destruct (while_gt fuel d) as [d1|] eqn:E1; [|discriminate].
  rewrite (while_gt_mono _ _ _ _ E1 Hle).
  exact (while_lt_mono _ _ _ _ Hr Hle).
Qed.

(** The result does not depend on the budget that reached it. *)
Lemma NormalizeAngleDifference_fuel_irrelevant (fuel fuel' : nat) (d r r' : T) :
  NormalizeAngleDifference fuel d = Some r ->
  NormalizeAngleDifference fuel' d = Some r' -> r = r'.
Proof.
  intros Hr Hr'.
  pose proof (NormalizeAngleDifference_mono _ (Nat.max fuel fuel') _ _ Hr) as E.
  pose proof (NormalizeAngleDifference_mono _ (Nat.max fuel fuel') _ _ Hr') as E'.
  rewrite E in E' by lia. injection E' as ->; [reflexivity | lia].
Qed.

(** The two loops, run one after the other with their own budgets, give
    the function's result once the common budget covers both. *)
Lemma NormalizeAngleDifference_compose (f1 f2 : nat) (d d1 r : T) :
  while_gt f1 d = Some d1 -> while_lt f2 d1 = Some r ->
  NormalizeAngleDifference (Nat.max f1 f2) d = Some r.
Proof.
  intros E1 E2. unfold NormalizeAngleDifference.
  rewrite (while_gt_mono _ (Nat.max f1 f2) _ _ E1) by lia.
  apply (while_lt_mono _ _ _ _ E2). lia.
Qed.
End LoopFacts.

(** ** The normalisation loops over the real numbers *)

Section LoopsOverR.
Local Open Scope R_scope.

Lemma Rltb_true (a b : R) : Rltb a b = true <-> a < b.
Proof. unfold Rltb. destruct (Rlt_dec a b); split; intros; try easy. Qed.

Lemma Rltb_false (a b : R) : Rltb a b = false <-> b <= a.
Proof.
  unfold Rltb. destruct (Rlt_dec a b); split; intros; try easy; lra.
Qed.

Lemma while_gt_R_step (fuel : nat) (d : R) :
  PI < d -> while_gt (T := R) (S fuel) d = while_gt (T := R) fuel (d - 2 * PI).
Proof.
  intros Hd. rewrite while_gt_unfold.
  replace (Tlt (kPi (T := R)) d) with true; [reflexivity|].
  symmetry. apply Rltb_true. exact Hd.
Qed.

Lemma while_gt_R_exit (fuel : nat) (d : R) :
  d <= PI -> while_gt (T := R) (S fuel) d = Some d.
Proof.
  intros Hd. rewrite while_gt_unfold.
  replace (Tlt (kPi (T := R)) d) with false; [reflexivity|].
  symmetry. apply Rltb_false. exact Hd.
Qed.

Lemma while_lt_R_step (fuel : nat) (d : R) :
  d < - PI -> while_lt (T := R) (S fuel) d = while_lt (T := R) fuel (d + 2 * PI).
Proof.
  intros Hd. rewrite while_lt_unfold.
  replace (Tlt d (Tneg (kPi (T := R)))) with true; [reflexivity|].
  symmetry. apply Rltb_true. exact Hd.
Qed.

Lemma while_lt_R_exit (fuel : nat) (d : R) :
  - PI <= d -> while_lt (T := R) (S fuel) d = Some d.
Proof.
  intros Hd. rewrite while_lt_unfold.
  replace (Tlt d (Tneg (kPi (T := R)))) with false; [reflexivity|].
  symmetry. apply Rltb_false. exact Hd.
Qed.

(** What the first loop leaves: a value not above [PI], reached from the
    input by subtracting [2 PI] some number of times, and above [- PI] as
    soon as one subtraction happened. *)
Lemma while_gt_R_result (fuel : nat) (d r : R) :
  while_gt (T := R) fuel d = Some r ->
  r <= PI /\ (exists n : nat, r = d - 2 * PI * INR n) /\ (r = d \/ - PI < r).
Proof.
  revert d. induction fuel as [|n IH]; intros d Hr; [discriminate|].
  destruct (Rlt_dec PI d) as [Hgt|Hle].
  - rewrite while_gt_R_step in Hr by exact Hgt.
    destruct (IH _ Hr) as (Hup & [m Hm] & Hlow).
    split; [exact Hup|]. split.
    + exists (S m). rewrite S_INR. lra.
    + right. destruct Hlow as [-> | Hlow]; lra.
  - rewrite while_gt_R_exit in Hr by lra.
    injection Hr as <-. split; [lra|]. split; [|now left].
    exists O. simpl. lra.
Qed.

Lemma while_lt_R_result (fuel : nat) (d r : R) :
  while_lt (T := R) fuel d = Some r ->
  - PI <= r /\ (exists n : nat, r = d + 2 * PI * INR n) /\ (r = d \/ r < PI).
Proof.
  revert d. induction fuel as [|n IH]; intros d Hr; [discriminate|].
  destruct (Rlt_dec d (- PI)) as [Hlt|Hge].
  - rewrite while_lt_R_step in Hr by exact Hlt.
    destruct (IH _ Hr) as (Hlow & [m Hm] & Hup).
    split; [exact Hlow|]. split.
    + exists (S m). rewrite S_INR. lra.
    + right. destruct Hup as [-> | Hup]; lra.
  - rewrite while_lt_R_exit in Hr by lra.
    injection Hr as <-. split; [lra|]. split; [|now left].
    exists O. simpl. lra.
Qed.

(** [n] subtractions are enough for an input at most [PI + 2 PI n]. *)
Lemma while_gt_R_terminates (n : nat) (d : R) :
  d <= PI + 2 * PI * INR n -> exists r, while_gt (T := R) (S n) d = Some r.
Proof.
  revert d. induction n as [|n IH]; intros d Hd.
  - exists d. apply while_gt_R_exit. simpl in Hd. lra.
  - destruct (Rlt_dec PI d) as [Hgt|Hle].
    + rewrite while_gt_R_step by exact Hgt.
      apply IH. rewrite S_INR in Hd. lra.
    + exists d. apply while_gt_R_exit. lra.
Qed.

Lemma while_lt_R_terminates (n : nat) (d : R) :
  - PI - 2 * PI * INR n <= d -> exists r, while_lt (T := R) (S n) d = Some r.
Proof.
  revert d. induction n as [|n IH]; intros d Hd.
  - exists d. apply while_lt_R_exit. simpl in Hd. lra.
  - destruct (Rlt_dec d (- PI)) as [Hlt|Hge].
    + rewrite while_lt_R_step by exact Hlt.
      apply IH. rewrite S_INR in Hd. lra.
    + exists d. apply while_lt_R_exit. lra.
Qed.

Lemma enough_fuel_bound (d : R) : Rabs d < INR (Z.to_nat (up (Rabs d))).
Proof.
  destruct (archimed (Rabs d)) as [Hup _].
  pose proof (Rabs_pos d) as Hpos.
  assert (0 <= up (Rabs d))%Z as Hz.
  { apply le_IZR. lra. }
  rewrite INR_IZR_INZ, Z2Nat.id by exact Hz. lra.
Qed.

Lemma NormalizeAngleDifference_R_terminates (d : R) :
  exists r, NormalizeAngleDifference (T := R) (enough_fuel d) d = Some r.
Proof.
  pose proof (enough_fuel_bound d) as Hb.
  pose proof PI_RGT_0 as Hpi. pose proof PI2_1 as Hpi2.
  unfold enough_fuel.
  generalize dependent (Z.to_nat (up (Rabs d))). intros n Hb.
  pose proof (pos_INR n) as Hn.
  assert (Rabs d <= 2 * PI * INR n) as Habs by nra.
  assert (0 <= 2 * PI * INR n) as Hturns by nra.
  destruct (while_gt_R_terminates n d) as [d1 E1].
  { pose proof (Rle_abs d). lra. }
  destruct (while_gt_R_result _ _ _ E1) as (_ & _ & Hlow).
  destruct (while_lt_R_terminates n d1) as [r E2].
  { destruct Hlow as [-> | Hlow]; [|lra].
    pose proof (Rle_abs (- d)) as Hneg. rewrite Rabs_Ropp in Hneg. lra. }
  exists r. unfold NormalizeAngleDifference.
  rewrite E1. exact E2.
Qed.

(** The result lies in the closed interval [[- PI, PI]] and differs from
    the input by a whole number of turns. *)
Lemma NormalizeAngleDifference_R_result (fuel : nat) (d r : R) :
  NormalizeAngleDifference (T := R) fuel d = Some r ->
  - PI <= r <= PI /\ exists k : Z, r = d + 2 * PI * IZR k.
Proof.
  unfold NormalizeAngleDifference. intros Hr.
  destruct (while_gt (T := R) fuel d) as [d1|] eqn:E1; [|discriminate].
  destruct (while_gt_R_result _ _ _ E1) as (Hup1 & [n1 Hn1] & _).
  destruct (while_lt_R_result _ _ _ Hr) as (Hlow & [n2 Hn2] & Hup2).
  split.
  - split; [exact Hlow|]. destruct Hup2 as [-> | Hup2]; lra.
  - exists (Z.of_nat n2 - Z.of_nat n1)%Z.
    rewrite minus_IZR, <- !INR_IZR_INZ. lra.
Qed.

(** Two values of [[- PI, PI]] a whole number of turns apart are equal
    unless they are the two ends of the interval. *)
Lemma turns_apart_equal (r1 r2 : R) (m : Z) :
  - PI < r1 < PI -> - PI <= r2 <= PI -> r2 = r1 + 2 * PI * IZR m -> r2 = r1.
Proof.
  intros H1 H2 Hm. pose proof PI_RGT_0 as Hpi.
  assert (-1 < m < 1)%Z as Hz.
  { split; apply lt_IZR; simpl; nra. }
  assert (m = 0)%Z as -> by lia. simpl in Hm. lra.
Qed.
End LoopsOverR.

(** ** C5, C9: what the loops compute *)

(** At [- PI] neither loop runs, so the result is [- PI] itself, outside
    [(- PI, PI]]; one turn further the result is [PI]. *)
Lemma NormalizeAngleDifference_minus_pi :
  NormalizeAngleDifference (T := R) 1 (- PI)%R = Some (- PI)%R /\
  ~ (- PI < - PI <= PI)%R /\
  NormalizeAngleDifference (T := R) 1 (- PI + 2 * PI * IZR 1)%R = Some PI /\
  (PI <> - PI)%R.
Proof.
  pose proof PI_RGT_0 as Hpi.
  unfold NormalizeAngleDifference.
  rewrite (while_gt_R_exit 0 (- PI)%R) by lra.
  rewrite (while_lt_R_exit 0 (- PI)%R) by lra.
  rewrite (while_gt_R_exit 0 (- PI + 2 * PI * IZR 1)%R) by lra.
  rewrite (while_lt_R_exit 0 (- PI + 2 * PI * IZR 1)%R) by lra.
  repeat split; [lra | f_equal; lra | lra].
Qed.

(** The same input in binary64: [-M_PI] comes back unchanged. *)
Example NormalizeAngleDifference_minus_M_PI :
  NormalizeAngleDifference (T := float) 1 (Dneg DPI) = Some (Dneg DPI) /\
  Dlt (Dneg DPI) (Dneg DPI : float) = false.
Proof. split; reflexivity. Qed.

(** C5 (as amended).  Over the real numbers the normalisation of [d]
    finishes within [enough_fuel d] tests; its result lies in the closed
    interval [[- PI, PI]], differs from [d] by a whole number of turns,
    and, when it is strictly inside the interval, is also the result for
    [d + 2 PI k], for every integer [k]. *)
Theorem NormalizeAngleDifference_R_wraps (d : R) (k : Z) :
  exists r : R,
    NormalizeAngleDifference (T := R) (enough_fuel d) d = Some r /\
    (- PI <= r <= PI)%R /\
    (exists j : Z, r = d + 2 * PI * IZR j)%R /\
    ((- PI < r < PI)%R ->
     NormalizeAngleDifference (T := R)
       (enough_fuel (d + 2 * PI * IZR k)) (d + 2 * PI * IZR k)%R = Some r).
Proof.
  destruct (NormalizeAngleDifference_R_terminates d) as [r Hr].
  destruct (NormalizeAngleDifference_R_result _ _ _ Hr) as (Hrange & j & Hj).
  exists r. repeat split; try tauto; [now exists j|].
  intros Hin.
  destruct (NormalizeAngleDifference_R_terminates (d + 2 * PI * IZR k)%R) as [r' Hr'].
  rewrite Hr'. f_equal.
  destruct (NormalizeAngleDifference_R_result _ _ _ Hr') as (Hrange' & j' & Hj').
  apply (turns_apart_equal r r' (k + j' - j)%Z); [exact Hin | exact Hrange' |].
  rewrite minus_IZR, plus_IZR. lra.
Qed.

(** The theorem at [d = 0], [k = 1]: a full turn normalises to [0]. *)
Lemma NormalizeAngleDifference_R_wraps_witness :
  NormalizeAngleDifference (T := R)
    (enough_fuel (0 + 2 * PI * IZR 1)) (0 + 2 * PI * IZR 1)%R = Some 0%R.
Proof.
  pose proof PI_RGT_0 as Hpi.
  destruct (NormalizeAngleDifference_R_wraps 0%R 1%Z) as (r & Hr & _ & _ & Hk).
  assert (r = 0%R) as ->.
  { unfold NormalizeAngleDifference, enough_fuel in Hr.
    rewrite while_gt_R_exit in Hr by lra.
    rewrite while_lt_R_exit in Hr by lra.
    now injection Hr. }
  apply Hk. lra.
Defined.

(** In binary64 the subtraction [1e17 - 2 * M_PI] rounds back to [1e17],
    which is still above [M_PI]: the first loop makes no progress. *)
Lemma big_angle_stuck :
  Tlt (kPi (T := float)) big_angle = true /\
  Tsub big_angle (two_kPi (T := float)) = big_angle.
Proof. split; reflexivity. Qed.

Lemma while_gt_big_angle (fuel : nat) :
  while_gt (T := float) fuel big_angle = None.
Proof.
  induction fuel as [|n IH]; [reflexivity|].
  rewrite while_gt_unfold.
  destruct big_angle_stuck as [-> ->]. exact IH.
Qed.

(** C9.  In binary64 arithmetic [NormalizeAngleDifference(1e17)] is still
    in its first loop after any number of tests: it does not terminate. *)
Theorem NormalizeAngleDifference_binary64_diverges (fuel : nat) :
  NormalizeAngleDifference (T := float) fuel big_angle = None.
Proof.
  unfold NormalizeAngleDifference. now rewrite while_gt_big_angle.
Qed.

(** The same for the whole evaluator, whatever [cos] and [sin] return:
    with an observed angle of [1e17] between two poses at the origin,
    [Evaluate] does not return. *)
Lemma Evaluate_binary64_diverges (libm : Libm float) (S : Matrix3 float)
    (fuel : nat) (jacobians : option Request) :
  SpaCostFunctorAnalytic.Evaluate
    (SpaCostFunctorAnalytic.make observed_big S) fuel parameters_origin jacobians
  = None.
Proof.
  unfold SpaCostFunctorAnalytic.Evaluate, SpaCostFunctorAnalytic.residuals.
  cbn [SpaCostFunctorAnalytic.make SpaCostFunctorAnalytic.theta_ observed_big
       rotation angle parameters_origin target_theta source_theta].
  change (Dsub big_angle (Dsub 0%float 0%float)) with big_angle.
  unfold NormalizeAngleDifference. now rewrite while_gt_big_angle.
Qed.

(** Over the real numbers every input is normalised within a number of
    tests bounded by its magnitude. *)
Lemma NormalizeAngleDifference_R_total (d : R) :
  exists r : R,
    NormalizeAngleDifference (T := R) (enough_fuel d) d = Some r /\
    (- PI <= r <= PI)%R.
Proof.
  destruct (NormalizeAngleDifference_R_terminates d) as [r Hr].
  exists r. split; [exact Hr|].
  now destruct (NormalizeAngleDifference_R_result _ _ _ Hr).
Qed.

(** ** C10: the two residual evaluators *)

Section Residuals.
Context {D : Type} `{DoubleOps D} `{Libm D}.

Lemma mcast_id (S : Matrix3 D) : mcast (fun d : D => d) S = S.
Proof. destruct S as [[? ? ?] [? ? ?] [? ? ?]]. reflexivity. Qed.

(** Eigen's product and the coefficient-wise formula agree. *)
Lemma mat_vec_spec_whiten (S : Matrix3 D) (r : Vector3 D) :
  mat_vec (T := D) S r = spec_whiten S r.
Proof.
  destruct S as [[? ? ?] [? ? ?] [? ? ?]], r as [? ? ?]. reflexivity.
Qed.

Lemma functor_residual_spec (observed : Pose D) (S : Matrix3 D) (fuel : nat)
    (p : Parameters D) :
  SpaCostFunctor.call (T := D) (SpaCostFunctor.make observed S) fuel
    (source_x p) (source_y p) (source_theta p)
    (target_x p) (target_y p) (target_theta p)
  = residual_with_normalizer S observed fuel p.
Proof.
  unfold SpaCostFunctor.call, residual_with_normalizer, spec_angle_error, SpaCostFunctor.make.
  cbn [SpaCostFunctor.x_ SpaCostFunctor.y_ SpaCostFunctor.theta_
       SpaCostFunctor.sqrt_information_ cast Scalar_double Tsub Tcos Tsin Trig_double].
  destruct (NormalizeAngleDifference fuel _) as [n|]; [|reflexivity].
  rewrite mcast_id, mat_vec_spec_whiten. reflexivity.
Qed.

Lemma analytic_residual_spec (observed : Pose D) (S : Matrix3 D) (fuel : nat)
    (p : Parameters D) :
  SpaCostFunctorAnalytic.residuals (SpaCostFunctorAnalytic.make observed S) fuel p
  = residual_with_normalizer S observed fuel p.
Proof.
  unfold SpaCostFunctorAnalytic.residuals, residual_with_normalizer, spec_angle_error,
    SpaCostFunctorAnalytic.make.
  cbn [SpaCostFunctorAnalytic.x_ SpaCostFunctorAnalytic.y_
       SpaCostFunctorAnalytic.theta_ SpaCostFunctorAnalytic.sqrt_information_].
  destruct (NormalizeAngleDifference fuel _) as [n|]; [|reflexivity].
  rewrite mat_vec_spec_whiten. reflexivity.
Qed.

Lemma Evaluate_residual (self : SpaCostFunctorAnalytic.t D) (fuel : nat)
    (p : Parameters D) (jacobians : option Request) :
  fst <$> SpaCostFunctorAnalytic.Evaluate self fuel p jacobians
  = SpaCostFunctorAnalytic.residuals self fuel p.
Proof.
  unfold SpaCostFunctorAnalytic.Evaluate.
  destruct (SpaCostFunctorAnalytic.residuals self fuel p); [|reflexivity].
  destruct jacobians; reflexivity.
Qed.

(** *** The functor at jets *)

Lemma while_gt_Jet (fuel : nat) (j : Jet D) :
  a <$> while_gt (T := Jet D) fuel j = while_gt (T := D) fuel (a j).
Proof.
  revert j. induction fuel as [|n IH]; intros j; [reflexivity|].
  rewrite !while_gt_unfold.
  change (Tlt (kPi (T := Jet D)) j) with (Tlt (kPi (T := D)) (a j)).
  destruct (Tlt (kPi (T := D)) (a j)); [|reflexivity].
  rewrite IH. reflexivity.
Qed.

Lemma while_lt_Jet (fuel : nat) (j : Jet D) :
  a <$> while_lt (T := Jet D) fuel j = while_lt (T := D) fuel (a j).
Proof.
  revert j. induction fuel as [|n IH]; intros j; [reflexivity|].
  rewrite !while_lt_unfold.
  change (Tlt j (Tneg (kPi (T := Jet D)))) with (Tlt (a j) (Tneg (kPi (T := D)))).
  destruct (Tlt (a j) (Tneg (kPi (T := D)))); [|reflexivity].
  rewrite IH. reflexivity.
Qed.

Lemma NormalizeAngleDifference_Jet (fuel : nat) (j : Jet D) :
  a <$> NormalizeAngleDifference (T := Jet D) fuel j
  = NormalizeAngleDifference (T := D) fuel (a j).
Proof.
  unfold NormalizeAngleDifference.
  pose proof (while_gt_Jet fuel j) as E.
  destruct (while_gt (T := Jet D) fuel j) as [j1|];
    destruct (while_gt (T := D) fuel (a j)) as [d1|]; try discriminate.
  - injection E as <-. apply while_lt_Jet.
  - reflexivity.
Qed.

(** The value parts of the residual the functor writes at jets are the
    residual it writes at the values. *)
Lemma functor_Jet_values (self : SpaCostFunctor.t D) (fuel : nat)
    (sx sy st tx ty tt : Jet D) :
  vmap a <$> SpaCostFunctor.call (T := Jet D) self fuel sx sy st tx ty tt
  = SpaCostFunctor.call (T := D) self fuel (a sx) (a sy) (a st) (a tx) (a ty) (a tt).
Proof.
  unfold SpaCostFunctor.call.
  pose proof (NormalizeAngleDifference_Jet fuel
    (Tsub (cast (SpaCostFunctor.theta_ self)) (Tsub tt st))) as E.
  change (a (Tsub (cast (SpaCostFunctor.theta_ self)) (Tsub tt st)))
    with (Tsub (T := D) (cast (SpaCostFunctor.theta_ self)) (Tsub (a tt) (a st))) in E.
  destruct (NormalizeAngleDifference (T := Jet D) fuel _) as [j2|];
    destruct (NormalizeAngleDifference (T := D) fuel _) as [d2|]; try discriminate.
  - injection E as <-.
    destruct self as [ox oy ot [[? ? ?] [? ? ?] [? ? ?]]]. reflexivity.
  - reflexivity.
Qed.

(** C10.  For every observation, matrix and six parameters, the residual
    the autodiff-backed functor computes, at [T = double] and in the value
    parts at [T = Jet], is the residual [Evaluate] of the analytic cost
    function computes, whatever Jacobian columns are requested. *)
Theorem autodiff_residual_eq_analytic (observed : Pose D) (S : Matrix3 D)
    (fuel : nat) (p : Parameters D) (jacobians : option Request)
    (sx sy st tx ty tt : list D) :
  let analytic :=
    fst <$> SpaCostFunctorAnalytic.Evaluate
              (SpaCostFunctorAnalytic.make observed S) fuel p jacobians in
  SpaCostFunctor.call (T := D) (SpaCostFunctor.make observed S) fuel
    (source_x p) (source_y p) (source_theta p)
    (target_x p) (target_y p) (target_theta p) = analytic /\
  vmap a <$> SpaCostFunctor.call (T := Jet D) (SpaCostFunctor.make observed S) fuel
    (mkJet (source_x p) sx) (mkJet (source_y p) sy) (mkJet (source_theta p) st)
    (mkJet (target_x p) tx) (mkJet (target_y p) ty) (mkJet (target_theta p) tt)
  = analytic.
Proof.
  intros analytic. subst analytic.
  rewrite Evaluate_residual, analytic_residual_spec, functor_Jet_values.
  cbn [a]. split; apply functor_residual_spec.
Qed.
End Residuals.

(** ** C3: the evaluators over the real numbers *)

Section ResidualsOverR.
Local Open Scope R_scope.

Lemma NormalizeAngleDifference_R_inside (fuel : nat) (d : R) :
  - PI <= d <= PI -> NormalizeAngleDifference (T := R) (S fuel) d = Some d.
Proof.
  intros [Hlow Hup]. unfold NormalizeAngleDifference.
  rewrite while_gt_R_exit by exact Hup.
  apply while_lt_R_exit. exact Hlow.
Qed.

(** Over the real numbers both evaluators return. *)
Lemma residual_R_returns (observed : Pose R) (S : Matrix3 R) (p : Parameters R) :
  exists n : R,
    (- PI <= n <= PI) /\
    SpaCostFunctorAnalytic.residuals (SpaCostFunctorAnalytic.make observed S)
      (enough_fuel (spec_angle_error observed p)) p
    = Some (spec_whiten S (spec_unwhitened observed p n)).
Proof.
  destruct (NormalizeAngleDifference_R_total (spec_angle_error observed p))
    as (n & Hn & Hrange).
  exists n. split; [exact Hrange|].
  rewrite analytic_residual_spec. unfold residual_with_normalizer. now rewrite Hn.
Qed.

(** Section 8: with [source = target] and the identity observed, the
    residual is the zero vector. *)
Lemma residual_zero_at_identity (S : Matrix3 R) (px py ptheta : R) (fuel : nat) :
  SpaCostFunctorAnalytic.residuals
    (SpaCostFunctorAnalytic.make (mkPose (mkVector2d 0 0) (mkRotation2Dd 0)) S)
    (Datatypes.S fuel) (mkParameters px py ptheta px py ptheta)
  = Some (mkVector3 0 0 0).
Proof.
  rewrite analytic_residual_spec. unfold residual_with_normalizer, spec_angle_error.
  cbn [angle rotation translation target_theta source_theta Dsub DoubleOps_R].
  replace (0 - (ptheta - ptheta)) with 0 by lra.
  pose proof PI_RGT_0 as Hpi.
  rewrite NormalizeAngleDifference_R_inside by lra.
  destruct S as [[? ? ?] [? ? ?] [? ? ?]].
  unfold spec_whiten, spec_unwhitened. cbn.
  f_equal. f_equal; lra.
Qed.

(** The Cholesky factor of the identity is the identity. *)
Lemma llt_Identity_R : llt_matrixU (D := R) Identity = Identity.
Proof.
  unfold llt_matrixU, Identity, coeff. cbn.
  replace (1 - 0 / R_sqrt.sqrt 1 * (0 / R_sqrt.sqrt 1)) with 1
    by (rewrite sqrt_1; lra).
  rewrite sqrt_1.
  replace (1 - (0 / 1 * (0 / 1) + (0 - 0 / 1 * (0 / 1)) / 1 * ((0 - 0 / 1 * (0 / 1)) / 1)))
    with 1 by lra.
  rewrite sqrt_1.
  repeat f_equal; lra.
Qed.

Lemma analytic_01_residuals :
  exists r : Vector3 R,
    SpaCostFunctorAnalytic.residuals analytic_01 1 parameters_01 = Some r.
Proof.
  unfold analytic_01. rewrite analytic_residual_spec.
  unfold residual_with_normalizer, spec_angle_error, observed_01, parameters_01.
  cbn [angle rotation translation target_theta source_theta Dsub DoubleOps_R].
  pose proof PI_RGT_0 as Hpi. pose proof PI2_1 as Hpi2.
  rewrite NormalizeAngleDifference_R_inside by lra.
  eexists. reflexivity.
Qed.

(** X4.  The residual is affine in the source position, with the slopes of
    section 4.2: moving the source by [(hx, hy)] adds
    [(S(i,0) c - S(i,1) s) hx + (S(i,0) s + S(i,1) c) hy] to row [i]. *)
Lemma residual_affine_in_source_position (observed : Pose R) (S : Matrix3 R)
    (fuel : nat) (p : Parameters R) (hx hy : R) (r r' : Vector3 R) (i : Ix3) :
  SpaCostFunctorAnalytic.residuals (SpaCostFunctorAnalytic.make observed S) fuel p
    = Some r ->
  SpaCostFunctorAnalytic.residuals (SpaCostFunctorAnalytic.make observed S) fuel
    (move_source hx hy p) = Some r' ->
  vcoeff r' i =
  vcoeff r i + spec_d_source_x S (source_theta p) i * hx
             + spec_d_source_y S (source_theta p) i * hy.
Proof.
  rewrite !analytic_residual_spec. unfold residual_with_normalizer.
  change (spec_angle_error observed (move_source hx hy p))
    with (spec_angle_error observed p).
  destruct (NormalizeAngleDifference fuel (spec_angle_error observed p)) as [n|];
    [|discriminate].
  intros [= <-] [= <-].
  destruct S as [[? ? ?] [? ? ?] [? ? ?]], observed as [[ox oy] [oa]], p as [? ? ? ? ? ?].
  unfold spec_d_source_x, spec_d_source_y.
  destruct i; cbn; ring.
Qed.

(** What the two loops compute over the real numbers. *)
Lemma NormalizeAngleDifference_R_closed_wrap (fuel : nat) (d r : R) :
  NormalizeAngleDifference (T := R) fuel d = Some r -> wraps_closed d r.
Proof.
  intros Hr. pose proof PI_RGT_0 as Hpi.
  destruct (NormalizeAngleDifference_R_result _ _ _ Hr) as (Hrange & Hk).
  destruct fuel as [|n]; [discriminate|].
  split; [exact Hrange|]. split; [exact Hk|]. split; [|split].
  - intros Hin. rewrite NormalizeAngleDifference_R_inside in Hr by exact Hin.
    now injection Hr.
  - intros Hgt. unfold NormalizeAngleDifference in Hr.
    destruct (while_gt (T := R) (Datatypes.S n) d) as [d1|] eqn:E1; [|discriminate].
    destruct (while_gt_R_result _ _ _ E1) as (Hup & _ & [-> | Hlow]); [lra|].
    rewrite while_lt_R_exit in Hr by lra. injection Hr as <-. exact Hlow.
  - intros Hlt. unfold NormalizeAngleDifference in Hr.
    rewrite while_gt_R_exit in Hr by lra.
    destruct (while_lt_R_result _ _ _ Hr) as (Hlow & _ & [-> | Hup]); lra.
Qed.

(** [wraps_closed] names one angle. *)
Lemma wraps_closed_unique (d n n' : R) :
  wraps_closed d n -> wraps_closed d n' -> n = n'.
Proof.
  intros (Hr & [k Hk] & Hin & Hgt & Hlt) (Hr' & [k' Hk'] & Hin' & Hgt' & Hlt').
  pose proof PI_RGT_0 as Hpi.
  assert (n' = n + 2 * PI * IZR (k' - k)) as Hm by (rewrite minus_IZR; lra).
  assert (-2 < k' - k < 2)%Z as Hz.
  { split; apply lt_IZR; simpl; nra. }
  destruct (Rle_or_lt d PI) as [Hle|Hd].
  - destruct (Rle_or_lt (- PI) d) as [Hge|Hd].
    + rewrite Hin, Hin' by lra. reflexivity.
    + specialize (Hlt Hd). specialize (Hlt' Hd).
      assert (k' - k = -1 \/ k' - k = 0 \/ k' - k = 1)%Z as [E | [E | E]] by lia;
        rewrite E in Hm; simpl in Hm; lra.
  - specialize (Hgt Hd). specialize (Hgt' Hd).
    assert (k' - k = -1 \/ k' - k = 0 \/ k' - k = 1)%Z as [E | [E | E]] by lia;
      rewrite E in Hm; simpl in Hm; lra.
Qed.

(** With an observed angle of [- PI] between two poses at the origin and
    the identity for [sqrt_information], both evaluators return
    [(0, 0, - PI)]; [normalize_angle] of section 4.1 wraps [- PI] to [PI]
    and to nothing else, so the vector of section 4.1 is [(0, 0, PI)]. *)
Lemma residual_at_minus_pi :
  SpaCostFunctorAnalytic.residuals
    (SpaCostFunctorAnalytic.make observed_minus_pi Identity) 1 parameters_zero
  = Some (mkVector3 0 0 (- PI)) /\
  SpaCostFunctor.call (T := R) (SpaCostFunctor.make observed_minus_pi Identity) 1
    0 0 0 0 0 0
  = Some (mkVector3 0 0 (- PI)) /\
  (forall n : R,
     spec_normalize_angle (spec_angle_error observed_minus_pi parameters_zero) n <->
     n = PI) /\
  spec_whiten Identity (spec_unwhitened observed_minus_pi parameters_zero PI)
  = mkVector3 0 0 PI /\
  mkVector3 0 0 (- PI) <> mkVector3 0 0 PI.
Proof.
  pose proof PI_RGT_0 as Hpi.
  assert (spec_angle_error observed_minus_pi parameters_zero = - PI) as He.
  { unfold spec_angle_error, observed_minus_pi, parameters_zero. cbn. lra. }
  assert (forall n : R,
            spec_whiten Identity (spec_unwhitened observed_minus_pi parameters_zero n)
            = mkVector3 0 0 n) as Hvec.
  { intros n. unfold spec_whiten, spec_unwhitened, observed_minus_pi, parameters_zero.
    cbn. rewrite cos_0, sin_0. f_equal; lra. }
  assert (SpaCostFunctorAnalytic.residuals
            (SpaCostFunctorAnalytic.make observed_minus_pi Identity) 1 parameters_zero
          = Some (mkVector3 0 0 (- PI))) as Hres.
  { rewrite analytic_residual_spec. unfold residual_with_normalizer.
    rewrite He, NormalizeAngleDifference_R_inside by lra. now rewrite Hvec. }
  split; [exact Hres|]. split.
  { rewrite <- Hres, analytic_residual_spec.
    exact (functor_residual_spec observed_minus_pi Identity 1 parameters_zero). }
  split; [|split; [apply Hvec|]].
  - intros n. rewrite He. unfold spec_normalize_angle. split.
    + intros (Hn & k & Hk).
      assert (0 < k < 2)%Z as Hz.
      { split; apply lt_IZR; simpl; nra. }
      assert (k = 1)%Z as -> by lia. lra.
    + intros ->. split; [lra|]. exists 1%Z. lra.
  - intros [= Heq]. lra.
Qed.

(** C3 (as amended).  Over the real numbers both evaluators, given the
    observation [(x̄, ȳ, θ̄)] and the six pose parameters, return
    [sqrt_information * [x̄ - (cos θ_s dx + sin θ_s dy),
    ȳ - (cos θ_s dy - sin θ_s dx), n]] with [dx = x_t - x_s],
    [dy = y_t - y_s], where [n] is [θ̄ - (θ_t - θ_s)] wrapped by whole
    turns into the closed interval [[- PI, PI]] ([wraps_closed]); they do
    so within [enough_fuel] loop tests, and return nothing else with any
    other number of tests. *)
Theorem residual_evaluators_wrap (observed : Pose R) (S : Matrix3 R)
    (p : Parameters R) (jacobians : option Request) :
  exists n : R,
    wraps_closed (spec_angle_error observed p) n /\
    SpaCostFunctor.call (T := R) (SpaCostFunctor.make observed S)
      (enough_fuel (spec_angle_error observed p))
      (source_x p) (source_y p) (source_theta p)
      (target_x p) (target_y p) (target_theta p)
    = Some (spec_whiten S (spec_unwhitened observed p n)) /\
    fst <$> SpaCostFunctorAnalytic.Evaluate (SpaCostFunctorAnalytic.make observed S)
              (enough_fuel (spec_angle_error observed p)) p jacobians
    = Some (spec_whiten S (spec_unwhitened observed p n)) /\
    (forall (fuel : nat) (r : Vector3 R),
       SpaCostFunctor.call (T := R) (SpaCostFunctor.make observed S) fuel
         (source_x p) (source_y p) (source_theta p)
         (target_x p) (target_y p) (target_theta p) = Some r \/
       fst <$> SpaCostFunctorAnalytic.Evaluate (SpaCostFunctorAnalytic.make observed S)
                 fuel p jacobians = Some r ->
       r = spec_whiten S (spec_unwhitened observed p n)).
Proof.
  destruct (NormalizeAngleDifference_R_terminates (spec_angle_error observed p))
    as [n Hn].
  exists n. split; [exact (NormalizeAngleDifference_R_closed_wrap _ _ _ Hn)|].
  split; [|split].
  - rewrite functor_residual_spec. unfold residual_with_normalizer. now rewrite Hn.
  - rewrite Evaluate_residual, analytic_residual_spec.
    unfold residual_with_normalizer. now rewrite Hn.
  - intros fuel r Hr.
    rewrite functor_residual_spec, Evaluate_residual, analytic_residual_spec in Hr.
    assert (residual_with_normalizer S observed fuel p = Some r) as Hr'
      by (destruct Hr; assumption).
    unfold residual_with_normalizer in Hr'.
    destruct (NormalizeAngleDifference fuel (spec_angle_error observed p))
      as [n'|] eqn:Hn'; [|discriminate].
    injection Hr' as <-.
    now rewrite (NormalizeAngleDifference_fuel_irrelevant _ _ _ _ _ Hn' Hn).
Qed.
End ResidualsOverR.

(** ** C1, C2, C4: the analytic Jacobian *)

Section JacobianColumns.
Context {D : Type} `{DoubleOps D} `{Libm D}.
Implicit Types (self : SpaCostFunctorAnalytic.t D) (p : Parameters D) (req : Request).

(** The column for the source [x] is the one of section 4.2, row by row. *)
Lemma source_x_column self p req :
  want_source_x req = true ->
  exists c : Vector3 D,
    jacobian_source_x (SpaCostFunctorAnalytic.fill_jacobians self p req) = Some c /\
    forall i : Ix3,
      vcoeff c i =
      spec_d_source_x (SpaCostFunctorAnalytic.sqrt_information_ self) (source_theta p) i.
Proof.
  intros Hreq. unfold SpaCostFunctorAnalytic.fill_jacobians.
  cbn [jacobian_source_x]. rewrite Hreq.
  eexists. split; [reflexivity|]. intros []; reflexivity.
Qed.

(** The column for the source [y]: rows 0 and 1 are those of section 4.2;
    row 2 multiplies the cosine by [S(2,2)] where section 4.2 has
    [S(2,1)]. *)
Lemma source_y_column self p req :
  want_source_y req = true ->
  let S := SpaCostFunctorAnalytic.sqrt_information_ self in
  exists c : Vector3 D,
    jacobian_source_y (SpaCostFunctorAnalytic.fill_jacobians self p req) = Some c /\
    vcoeff c I0 = spec_d_source_y S (source_theta p) I0 /\
    vcoeff c I1 = spec_d_source_y S (source_theta p) I1 /\
    vcoeff c I2 = Dadd (Dmul (coeff S I2 I0) (Dsin (source_theta p)))
                       (Dmul (coeff S I2 I2) (Dcos (source_theta p))).
Proof.
  intros Hreq S. unfold SpaCostFunctorAnalytic.fill_jacobians.
  cbn [jacobian_source_y]. rewrite Hreq.
  eexists. split; [reflexivity|]. repeat split.
Qed.

(** Within one evaluation that computes a source column and the matching
    target column, the target column is the negated source column, entry
    by entry. *)
Lemma target_negates_source_same_request self p req :
  let J := SpaCostFunctorAnalytic.fill_jacobians self p req in
  (want_source_x req = true -> want_target_x req = true ->
   jacobian_target_x J = vmap Dneg <$> jacobian_source_x J) /\
  (want_source_y req = true -> want_target_y req = true ->
   jacobian_target_y J = vmap Dneg <$> jacobian_source_y J).
Proof.
  unfold SpaCostFunctorAnalytic.fill_jacobians.
  cbn [jacobian_target_x jacobian_source_x jacobian_target_y jacobian_source_y].
  split; intros -> ->; reflexivity.
Qed.

(** The columns for the source position, the source angle and the target
    angle do not look at the request beyond their own flag. *)
Lemma source_columns_request_independent self p req req' :
  let J := SpaCostFunctorAnalytic.fill_jacobians self p req in
  let J' := SpaCostFunctorAnalytic.fill_jacobians self p req' in
  (want_source_x req = want_source_x req' -> jacobian_source_x J = jacobian_source_x J') /\
  (want_source_y req = want_source_y req' -> jacobian_source_y J = jacobian_source_y J') /\
  (want_source_theta req = want_source_theta req' ->
   jacobian_source_theta J = jacobian_source_theta J') /\
  (want_target_theta req = want_target_theta req' ->
   jacobian_target_theta J = jacobian_target_theta J').
Proof.
  unfold SpaCostFunctorAnalytic.fill_jacobians.
  cbn [jacobian_source_x jacobian_source_y jacobian_source_theta jacobian_target_theta].
  repeat split; intros ->; reflexivity.
Qed.
End JacobianColumns.

Section JacobianOverR.
Local Open Scope R_scope.
Implicit Types (self : SpaCostFunctorAnalytic.t R) (p : Parameters R) (req : Request).

(** Over the real numbers the target [x] column is the negated source [x]
    column of section 4.2 whatever else is requested. *)
Lemma target_x_column_R self p req :
  want_target_x req = true ->
  exists c : Vector3 R,
    jacobian_target_x (SpaCostFunctorAnalytic.fill_jacobians self p req) = Some c /\
    forall i : Ix3,
      vcoeff c i =
      - spec_d_source_x (SpaCostFunctorAnalytic.sqrt_information_ self) (source_theta p) i.
Proof.
  intros Hreq. unfold SpaCostFunctorAnalytic.fill_jacobians.
  cbn [jacobian_target_x]. rewrite Hreq.
  eexists. split; [reflexivity|].
  unfold spec_d_source_x.
  destruct (want_source_x req); intros []; cbn; lra.
Qed.

(** The target [y] column, row 2, follows whichever branch computes it:
    the negated source entry, with [S(2,2)], when the source [y] column is
    requested too, and the formula with [S(2,1)] otherwise.  Rows 0 and 1
    are the negated entries of section 4.2 in both branches. *)
Lemma target_y_column_R self p req :
  want_target_y req = true ->
  let S := SpaCostFunctorAnalytic.sqrt_information_ self in
  exists c : Vector3 R,
    jacobian_target_y (SpaCostFunctorAnalytic.fill_jacobians self p req) = Some c /\
    vcoeff c I0 = - spec_d_source_y S (source_theta p) I0 /\
    vcoeff c I1 = - spec_d_source_y S (source_theta p) I1 /\
    vcoeff c I2 =
      - (coeff S I2 I0 * sin (source_theta p)
         + coeff S I2 (if want_source_y req then I2 else I1) * cos (source_theta p)).
Proof.
  intros Hreq S. subst S. unfold SpaCostFunctorAnalytic.fill_jacobians.
  cbn [jacobian_target_y]. rewrite Hreq.
  eexists. split; [reflexivity|].
  unfold spec_d_source_y.
  destruct (want_source_y req); repeat split; cbn; lra.
Qed.

(** The Jacobian [Evaluate] returns for the first block of [run]. *)
Lemma Evaluate_analytic_01 (req : Request) :
  exists r : Vector3 R,
    SpaCostFunctorAnalytic.Evaluate analytic_01 1 parameters_01 (Some req)
    = Some (r, Some (SpaCostFunctorAnalytic.fill_jacobians analytic_01 parameters_01 req)).
Proof.
  destruct analytic_01_residuals as [r Hr]. exists r.
  unfold SpaCostFunctorAnalytic.Evaluate. now rewrite Hr.
Qed.

Lemma analytic_01_coefficients :
  SpaCostFunctorAnalytic.sqrt_information_ analytic_01 = Identity /\
  cos (source_theta parameters_01) = 1 /\
  sin (source_theta parameters_01) = 0.
Proof.
  unfold analytic_01, SpaCostFunctorAnalytic.make, parameters_01.
  cbn [SpaCostFunctorAnalytic.sqrt_information_ source_theta].
  rewrite llt_Identity_R, cos_0, sin_0. repeat split.
Qed.

(** Entry [(2, j)] of the identity against [sin] and [cos] at
    [theta_s = 0]. *)
Lemma analytic_01_row2 (j : Ix3) :
  coeff (SpaCostFunctorAnalytic.sqrt_information_ analytic_01) I2 I0
    * sin (source_theta parameters_01)
  + coeff (SpaCostFunctorAnalytic.sqrt_information_ analytic_01) I2 j
    * cos (source_theta parameters_01)
  = match j with I2 => 1 | _ => 0 end.
Proof.
  destruct analytic_01_coefficients as (-> & -> & ->).
  destruct j; cbn; lra.
Qed.

(** C1.  For the first residual block of [run] ([S] the identity,
    [theta_s = 0]) row 2 of the source [y] column that [Evaluate] writes is
    [1], where [S(2,0) s + S(2,1) c] is [0]. *)
Theorem Evaluate_source_y_row2_at_run :
  exists (r : Vector3 R) (J : Jacobians R) (sy : Vector3 R),
    SpaCostFunctorAnalytic.Evaluate analytic_01 1 parameters_01 (Some request_all)
    = Some (r, Some J) /\
    jacobian_source_y J = Some sy /\
    vcoeff sy I2 = 1 /\
    spec_d_source_y (SpaCostFunctorAnalytic.sqrt_information_ analytic_01)
      (source_theta parameters_01) I2 = 0.
Proof.
  destruct (Evaluate_analytic_01 request_all) as [r Hr].
  destruct (source_y_column analytic_01 parameters_01 request_all eq_refl)
    as (sy & Hsy & _ & _ & Hrow2).
  exists r. eexists. exists sy. split; [exact Hr|]. split; [exact Hsy|]. split.
  - rewrite Hrow2. exact (analytic_01_row2 I2).
  - exact (analytic_01_row2 I1).
Qed.

(** C2.  For the first residual block of [run], row 2 of the target [y]
    column is [-1] when the source [y] column is requested with it and [0]
    when the target [y] column is requested alone. *)
Theorem Evaluate_target_y_depends_on_request :
  exists (r : Vector3 R) (J J' : Jacobians R) (c c' : Vector3 R),
    SpaCostFunctorAnalytic.Evaluate analytic_01 1 parameters_01 (Some request_both_y)
    = Some (r, Some J) /\
    SpaCostFunctorAnalytic.Evaluate analytic_01 1 parameters_01 (Some request_target_y)
    = Some (r, Some J') /\
    jacobian_target_y J = Some c /\
    jacobian_target_y J' = Some c' /\
    vcoeff c I2 = -1 /\
    vcoeff c' I2 = 0.
Proof.
  destruct (Evaluate_analytic_01 request_both_y) as [r Hr].
  destruct (Evaluate_analytic_01 request_target_y) as [r' Hr'].
  assert (r' = r) as ->.
  { unfold SpaCostFunctorAnalytic.Evaluate in Hr, Hr'.
    destruct (SpaCostFunctorAnalytic.residuals analytic_01 1 parameters_01);
      [|discriminate].
    congruence. }
  destruct (target_y_column_R analytic_01 parameters_01 request_both_y eq_refl)
    as (c & Hc & _ & _ & Hrow2).
  destruct (target_y_column_R analytic_01 parameters_01 request_target_y eq_refl)
    as (c' & Hc' & _ & _ & Hrow2').
  exists r. do 2 eexists. exists c, c'.
  split; [exact Hr|]. split; [exact Hr'|]. split; [exact Hc|]. split; [exact Hc'|].
  rewrite Hrow2, Hrow2'. cbn [want_source_y request_both_y request_target_y].
  rewrite (analytic_01_row2 I2), (analytic_01_row2 I1). split; lra.
Qed.

(** C4.  For the first residual block of [run], row 2 of the target [y]
    column requested alone is [0], while row 2 of the source [y] column is
    [1]: the one is not the negation of the other. *)
Theorem Evaluate_target_y_not_negated_source_y :
  exists (r : Vector3 R) (J J' : Jacobians R) (ty sy : Vector3 R),
    SpaCostFunctorAnalytic.Evaluate analytic_01 1 parameters_01 (Some request_target_y)
    = Some (r, Some J) /\
    SpaCostFunctorAnalytic.Evaluate analytic_01 1 parameters_01 (Some request_source_y)
    = Some (r, Some J') /\
    jacobian_target_y J = Some ty /\
    jacobian_source_y J' = Some sy /\
    vcoeff ty I2 = 0 /\
    vcoeff sy I2 = 1 /\
    vcoeff ty I2 <> - vcoeff sy I2.
Proof.
  destruct (Evaluate_analytic_01 request_target_y) as [r Hr].
  destruct (Evaluate_analytic_01 request_source_y) as [r' Hr'].
  assert (r' = r) as ->.
  { unfold SpaCostFunctorAnalytic.Evaluate in Hr, Hr'.
    destruct (SpaCostFunctorAnalytic.residuals analytic_01 1 parameters_01);
      [|discriminate].
    congruence. }
  destruct (target_y_column_R analytic_01 parameters_01 request_target_y eq_refl)
    as (ty & Hty & _ & _ & Ht2).
  destruct (source_y_column analytic_01 parameters_01 request_source_y eq_refl)
    as (sy & Hsy & _ & _ & Hs2).
  assert (vcoeff ty I2 = 0) as Hty0.
  { rewrite Ht2. cbn [want_source_y request_target_y].
    rewrite (analytic_01_row2 I1). lra. }
  assert (vcoeff sy I2 = 1) as Hsy1.
  { rewrite Hs2. exact (analytic_01_row2 I2). }
  exists r. do 2 eexists. exists ty, sy.
  split; [exact Hr|]. split; [exact Hr'|]. split; [exact Hty|]. split; [exact Hsy|].
  split; [exact Hty0|]. split; [exact Hsy1|].
  rewrite Hty0, Hsy1. intros Heq. lra.
Qed.
End JacobianOverR.

(** ** C6, C7, C8: what [Optimize] assembles *)

Section Assembly.
Context {D : Type} `{DoubleOps D}.
Implicit Types (poses : gmap Z (Pose D)) (st : OptState D)
  (constraints : list (Constraint D)) (id k : Z).

(** [poses[k]] adds the key [k] when it is absent and changes nothing
    else. *)
Lemma map_subscript_lookup poses k id :
  map_subscript poses k !! id =
  match poses !! id with
  | Some p => Some p
  | None => if bool_decide (id = k) then Some Pose_value_init else None
  end.
Proof.
  unfold map_subscript.
  destruct (poses !! k) as [q|] eqn:Ek.
  - destruct (poses !! id) as [p|] eqn:Eid; [reflexivity|].
    case_bool_decide as Hk; [congruence | reflexivity].
  - rewrite lookup_insert. case_decide as Hk.
    + subst id. rewrite Ek. now rewrite bool_decide_eq_true_2.
    + destruct (poses !! id); [reflexivity|].
      rewrite bool_decide_eq_false_2; [reflexivity | congruence].
Qed.

Lemma fold_map_subscript_lookup (ids : list Z) poses id :
  fold_left map_subscript ids poses !! id =
  match poses !! id with
  | Some p => Some p
  | None => if bool_decide (id ∈ ids) then Some Pose_value_init else None
  end.
Proof.
  revert poses. induction ids as [|k ids IH]; intros poses; cbn [fold_left].
  - destruct (poses !! id); [reflexivity|].
    rewrite bool_decide_eq_false_2; [reflexivity | apply not_elem_of_nil].
  - rewrite IH, map_subscript_lookup.
    destruct (poses !! id) as [p|]; [reflexivity|].
    destruct (bool_decide_reflect (id = k));
      destruct (bool_decide_reflect (id ∈ ids));
      destruct (bool_decide_reflect (id ∈ k :: ids)) as [Hc|Hc];
      try reflexivity; exfalso; rewrite elem_of_cons in Hc; tauto.
Qed.

(** The loop, seen through its three effects. *)
Lemma fold_add_constraint (use_analytic_cost : bool) (S : Matrix3 D) constraints st :
  let st' := fold_left (add_constraint use_analytic_cost S) constraints st in
  let blocks := map (residual_block_for use_analytic_cost S) constraints in
  st_poses st' =
    fold_left map_subscript
      (flat_map (fun c => [source c; target c]) constraints) (st_poses st) /\
  st_problem st' =
    mkProblem (residual_blocks (st_problem st) ++ blocks)
              (constant_blocks (st_problem st)) /\
  st_calls st' = st_calls st ++ map CallAddResidualBlock blocks.
Proof.
  revert st. induction constraints as [|c cs IH]; intros st; cbn [fold_left map flat_map].
  - rewrite !app_nil_r. destruct st as [? [? ?] ?]. repeat split.
  - destruct (IH (add_constraint use_analytic_cost S st c)) as (Hp & Hq & Hc).
    cbn zeta in Hp, Hq, Hc. rewrite Hp, Hq, Hc.
    unfold add_constraint, AddResidualBlock.
    cbn [st_poses st_problem st_calls residual_blocks constant_blocks app fold_left].
    rewrite <- !app_assoc. repeat split.
Qed.

(** The state [Optimize] has reached when it calls the solver. *)
Lemma assemble_state constraints poses (use_analytic_cost : bool) :
  let st := assemble constraints poses use_analytic_cost in
  let blocks :=
    map (residual_block_for use_analytic_cost (llt_matrixU Identity)) constraints in
  st_poses st = fold_left map_subscript (referenced_ids constraints) poses /\
  st_problem st = mkProblem blocks (pose_blocks 0) /\
  st_calls st =
    CallLLT Identity :: map CallAddResidualBlock blocks
      ++ map CallSetParameterBlockConstant (pose_blocks 0).
Proof.
  unfold assemble.
  destruct (fold_add_constraint use_analytic_cost (llt_matrixU Identity) constraints
              (mkOptState poses (mkProblem [] []) [CallLLT Identity]))
    as (Hp & Hq & Hc).
  cbn zeta in Hp, Hq, Hc. cbn zeta.
  cbn [st_poses st_problem st_calls]. rewrite Hp, Hq, Hc.
  cbn [st_poses st_problem st_calls residual_blocks constant_blocks app].
  unfold referenced_ids. rewrite fold_left_app. repeat split.
Qed.

Lemma filter_is_llt_blocks (blocks : list (ResidualBlock D)) :
  filter (fun c => is_llt c = true) (map CallAddResidualBlock blocks) = [].
Proof.
  induction blocks as [|b bs IH]; [reflexivity|].
  cbn [map]. rewrite filter_cons_False; [exact IH | cbn; congruence].
Qed.

Lemma filter_is_solve_blocks (blocks : list (ResidualBlock D)) :
  filter (fun c => is_solve c = true) (map CallAddResidualBlock blocks) = [].
Proof.
  induction blocks as [|b bs IH]; [reflexivity|].
  cbn [map]. rewrite filter_cons_False; [exact IH | cbn; congruence].
Qed.

(** Two poses with the same three scalars are the same pose. *)
Lemma pose_fields_eq (p q : option (Pose D)) :
  (forall f : Field, read_field f <$> p = read_field f <$> q) -> p = q.
Proof.
  intros Hf.
  pose proof (Hf FieldX) as Hx. pose proof (Hf FieldY) as Hy.
  pose proof (Hf FieldAngle) as Ha.
  destruct p as [[[px py] [pa]]|], q as [[[qx qy] [qa]]|];
    cbn in Hx, Hy, Ha; congruence.
Qed.

(** C6 (as amended).  [Optimize] computes one Cholesky factor per call,
    that of the identity information matrix, before the loop; every
    constraint gets one residual block, and every block whitens with that
    same factor. *)
Theorem Optimize_one_factor_per_problem
    (Solve : Problem D -> gmap Z (Pose D) -> gmap Z (Pose D) * Summary D)
    constraints poses (use_analytic_cost : bool) :
  let blocks := residual_blocks (st_problem (assemble constraints poses use_analytic_cost)) in
  filter (fun c => is_llt c = true)
    (snd (Optimize Solve constraints poses use_analytic_cost))
  = [CallLLT Identity] /\
  length blocks = length constraints /\
  Forall (fun b => whitening (cost_function b) = llt_matrixU Identity) blocks.
Proof.
  destruct (assemble_state constraints poses use_analytic_cost) as (_ & Hq & Hc).
  cbn zeta in Hq, Hc. cbn zeta. unfold Optimize. cbn [snd].
  rewrite Hc, Hq. cbn [residual_blocks]. split; [|split].
  - rewrite app_comm_cons, <- app_assoc, filter_app, filter_cons_True by reflexivity.
    rewrite filter_is_llt_blocks. reflexivity.
  - apply length_map.
  - apply Forall_map, Forall_forall. intros c _.
    unfold residual_block_for. cbn [cost_function].
    destruct use_analytic_cost; reflexivity.
Qed.

(** C7 (as amended).  Assembly has no failing outcome and ends with the map
    enlarged: every pose the map held is still there, unchanged; every id
    that a constraint or the anchor refers to has a pose, added by
    [operator[]] where it was absent; no other id is added; and all of
    this happens before any call of the solver. *)
Theorem Optimize_inserts_missing_poses
    constraints poses (use_analytic_cost : bool) :
  let st := assemble constraints poses use_analytic_cost in
  (forall id (q : Pose D), poses !! id = Some q -> st_poses st !! id = Some q) /\
  (forall id, id ∈ referenced_ids constraints -> is_Some (st_poses st !! id)) /\
  (forall id, poses !! id = None -> id ∉ referenced_ids constraints ->
              st_poses st !! id = None) /\
  filter (fun c => is_solve c = true) (st_calls st) = [].
Proof.
  destruct (assemble_state constraints poses use_analytic_cost) as (Hp & _ & Hc).
  cbn zeta in Hp, Hc. cbn zeta. split; [|split; [|split]].
  - intros id q Hq. rewrite Hp, fold_map_subscript_lookup. now rewrite Hq.
  - intros id Hin. rewrite Hp, fold_map_subscript_lookup.
    destruct (poses !! id); [eauto|].
    rewrite bool_decide_eq_true_2 by exact Hin. eauto.
  - intros id Hnone Hout. rewrite Hp, fold_map_subscript_lookup, Hnone.
    now rewrite bool_decide_eq_false_2.
  - rewrite Hc, filter_cons_False by (cbn; congruence).
    rewrite filter_app, filter_is_solve_blocks. reflexivity.
Qed.

(** C8.  The blocks set constant are exactly the three scalars of the pose
    with id [0]; and with a solver that does not write through constant
    blocks, the pose [Optimize] leaves under id [0] is the one the map
    held there (the value-initialised one if it held none). *)
Theorem Optimize_anchor_held_constant
    (Solve : Problem D -> gmap Z (Pose D) -> gmap Z (Pose D) * Summary D)
    (HSolve : keeps_constant_blocks Solve)
    constraints poses (use_analytic_cost : bool) :
  let st := assemble constraints poses use_analytic_cost in
  constant_blocks (st_problem st) = pose_blocks 0 /\
  (forall id, (forall f : Field, (id, f) ∈ constant_blocks (st_problem st)) <-> id = 0%Z) /\
  snd (fst (Optimize Solve constraints poses use_analytic_cost)) !! 0%Z
  = Some (default Pose_value_init (poses !! 0%Z)).
Proof.
  destruct (assemble_state constraints poses use_analytic_cost) as (Hp & Hq & _).
  cbn zeta in Hp, Hq. cbn zeta.
  assert (constant_blocks (st_problem (assemble constraints poses use_analytic_cost))
          = pose_blocks 0) as Hconst by now rewrite Hq.
  split; [exact Hconst|]. split.
  - intros id. rewrite Hconst. unfold pose_blocks. split.
    + intros Hall. specialize (Hall FieldX).
      repeat (apply elem_of_cons in Hall as [Hall|Hall]; [congruence|]).
      now apply elem_of_nil in Hall.
    + intros -> f. destruct f; repeat constructor.
  - unfold Optimize. cbn [fst snd].
    transitivity (st_poses (assemble constraints poses use_analytic_cost) !! 0%Z).
    + apply pose_fields_eq. intros f. apply HSolve.
      rewrite Hconst. unfold pose_blocks. destruct f; repeat constructor.
    + rewrite Hp, fold_map_subscript_lookup.
      destruct (poses !! 0%Z) as [p|]; [reflexivity|].
      rewrite bool_decide_eq_true_2; [reflexivity|].
      unfold referenced_ids. apply elem_of_app. right. constructor.
Qed.
End Assembly.

(** *** The model run with a solver *)

Section SolveReset.
Context {D : Type} `{DoubleOps D}.

Lemma reset_pose_constant (problem : Problem D) (id : Z) (f : Field) (p : Pose D) :
  (id, f) ∈ constant_blocks problem ->
  read_field f (reset_pose problem id p) = read_field f p.
Proof.
  intros Hin. unfold reset_pose. cbn [foldr].
  destruct f;
    repeat match goal with
           | |- context [bool_decide ?P] => destruct (bool_decide_reflect P)
           end;
    try reflexivity; contradiction.
Qed.

(** [Solve_reset] meets the contract. *)
Lemma Solve_reset_keeps_constant : keeps_constant_blocks (D := D) Solve_reset.
Proof.
  intros problem poses id f Hin. unfold Solve_reset. cbn [fst].
  rewrite map_lookup_imap.
  destruct (poses !! id) as [p|]; [|reflexivity].
  cbn. f_equal. now apply reset_pose_constant.
Qed.
End SolveReset.

(** The Cholesky factor [Optimize] computes in binary64 is the identity. *)
Example llt_Identity_binary64 : llt_matrixU (D := float) Identity = Identity.
Proof. reflexivity. Qed.

(** [run] has three constraints and [Optimize] computes one factor for
    them: not one per constraint. *)
Lemma run_computes_one_factor :
  length run_constraints = 3 /\
  length (filter (fun c => is_llt c = true)
            (snd (Optimize Solve_reset run_constraints run_poses true))) = 1 /\
  length run_constraints <>
  length (filter (fun c => is_llt c = true)
            (snd (Optimize Solve_reset run_constraints run_poses true))).
Proof. vm_compute. repeat split. discriminate. Qed.

(** With poses [{0, 1, 2}] and a constraint that refers to pose [5],
    [Optimize] adds a pose under the key [5] and goes on to call the
    solver. *)
Lemma Optimize_missing_pose_id :
  run_poses !! 5%Z = None /\
  is_Some (st_poses (assemble [constraint_05] run_poses true) !! 5%Z) /\
  filter (fun c => is_solve c = true)
    (snd (Optimize Solve_reset [constraint_05] run_poses true))
  = [CallSolve (st_problem (assemble [constraint_05] run_poses true))].
Proof.
  split; [reflexivity|]. split; [|vm_compute; reflexivity].
  eexists. vm_compute. reflexivity.
Qed.

(** The theorem at [run]'s triangle with [Solve_reset]: pose [0] is left
    as it was. *)
Lemma Optimize_anchor_held_constant_witness :
  snd (fst (Optimize Solve_reset run_constraints run_poses true)) !! 0%Z
  = Some (mkPose (mkVector2d 0%float 0%float) (mkRotation2Dd 0%float)).
Proof.
  exact (proj2 (proj2 (Optimize_anchor_held_constant Solve_reset
                         Solve_reset_keeps_constant run_constraints run_poses true))).
Defined.

(** With that solver the other two poses do change. *)
Example Optimize_other_poses_change :
  snd (fst (Optimize Solve_reset run_constraints run_poses true)) !! 1%Z
  = Some Pose_value_init /\
  run_poses !! 1%Z
  = Some (mkPose (mkVector2d 4.3%float (-0.2)%float) (mkRotation2Dd 1.4208%float)).
Proof. vm_compute. split; reflexivity. Qed.

(** * Further properties of the code *)

(** ** NormalizeAngleDifference *)

Section NormalizeMore.
Local Open Scope R_scope.

(** Negating the input swaps the roles of the two loops. *)
Lemma while_gt_R_opp (fuel : nat) (d : R) :
  while_gt (T := R) fuel (- d) = Ropp <$> while_lt (T := R) fuel d.
Proof.
  revert d. induction fuel as [|n IH]; intros d; [reflexivity|].
  destruct (Rlt_dec d (- PI)) as [Hlt|Hge].
  - rewrite while_lt_R_step by exact Hlt.
    rewrite while_gt_R_step by lra.
    replace (- d - 2 * PI) with (- (d + 2 * PI)) by lra. apply IH.
  - rewrite while_lt_R_exit by lra.
    rewrite while_gt_R_exit by lra. reflexivity.
Qed.

Lemma while_lt_R_opp (fuel : nat) (d : R) :
  while_lt (T := R) fuel (- d) = Ropp <$> while_gt (T := R) fuel d.
Proof.
  revert d. induction fuel as [|n IH]; intros d; [reflexivity|].
  destruct (Rlt_dec PI d) as [Hgt|Hle].
  - rewrite while_gt_R_step by exact Hgt.
    rewrite while_lt_R_step by lra.
    replace (- d + 2 * PI) with (- (d - 2 * PI)) by lra. apply IH.
  - rewrite while_gt_R_exit by lra.
    rewrite while_lt_R_exit by lra. reflexivity.
Qed.

(** At most one of the two loops does anything, so their order does not
    matter. *)
Lemma while_loops_commute_R (fuel : nat) (d : R) :
  while_lt (T := R) fuel d ≫= while_gt (T := R) fuel
  = while_gt (T := R) fuel d ≫= while_lt (T := R) fuel.
Proof.
  destruct fuel as [|n]; [reflexivity|].
  pose proof PI_RGT_0 as Hpi.
  destruct (Rlt_dec PI d) as [Hgt|Hle].
  - rewrite (while_lt_R_exit n d) by lra. cbn [mbind option_bind].
    destruct (while_gt (T := R) (S n) d) as [d1|] eqn:E1; [|reflexivity].
    destruct (while_gt_R_result _ _ _ E1) as (Hup & _ & [-> | Hlow]); [lra|].
    cbn [mbind option_bind]. rewrite while_lt_R_exit by lra. reflexivity.
  - rewrite (while_gt_R_exit n d) by lra. cbn [mbind option_bind].
    destruct (while_lt (T := R) (S n) d) as [d1|] eqn:E1; [|reflexivity].
    destruct (while_lt_R_result _ _ _ E1) as (Hlow & _ & [-> | Hup]).
    + cbn [mbind option_bind]. rewrite while_gt_R_exit by lra. reflexivity.
    + cbn [mbind option_bind]. rewrite while_gt_R_exit by lra. reflexivity.
Qed.

(** X1.  Over the real numbers the normalisation is an odd function: with
    the same number of loop tests, [NormalizeAngleDifference(-d)] is the
    negated [NormalizeAngleDifference(d)], and runs out of tests exactly
    when that one does. *)
Theorem NormalizeAngleDifference_R_odd (fuel : nat) (d : R) :
  NormalizeAngleDifference (T := R) fuel (- d)
  = Ropp <$> NormalizeAngleDifference (T := R) fuel d.
Proof.
  transitivity (while_gt (T := R) fuel (- d) ≫= while_lt (T := R) fuel).
  { unfold NormalizeAngleDifference.
    destruct (while_gt (T := R) fuel (- d)); reflexivity. }
  rewrite while_gt_R_opp.
  transitivity (Ropp <$> (while_lt (T := R) fuel d ≫= while_gt (T := R) fuel)).
  { destruct (while_lt (T := R) fuel d) as [d1|]; [|reflexivity].
    cbn [fmap option_fmap option_map mbind option_bind].
    apply while_lt_R_opp. }
  rewrite while_loops_commute_R. unfold NormalizeAngleDifference.
  destruct (while_gt (T := R) fuel d); reflexivity.
Qed.

(** X2.  Over the real numbers the angles returned unchanged are exactly
    those of [[- PI, PI]], and a result is returned unchanged when it is
    normalised again. *)
Theorem NormalizeAngleDifference_R_fixed_points (fuel fuel' : nat) (d : R) :
  (NormalizeAngleDifference (T := R) (S fuel) d = Some d <-> - PI <= d <= PI) /\
  (forall r : R,
     NormalizeAngleDifference (T := R) fuel d = Some r ->
     NormalizeAngleDifference (T := R) (S fuel') r = Some r).
Proof.
  split.
  - split.
    + intros Hd. now destruct (NormalizeAngleDifference_R_result _ _ _ Hd).
    + apply NormalizeAngleDifference_R_inside.
  - intros r Hr. apply NormalizeAngleDifference_R_inside.
    now destruct (NormalizeAngleDifference_R_result _ _ _ Hr).
Qed.
End NormalizeMore.

(** In binary64 an infinite input is as stuck as a huge one. *)
Lemma while_gt_infinity (fuel : nat) :
  while_gt (T := float) fuel infinity = None.
Proof.
  induction fuel as [|n IH]; [reflexivity|].
  rewrite while_gt_unfold.
  change (Tlt (kPi (T := float)) infinity) with true.
  change (Tsub infinity (two_kPi (T := float))) with infinity.
  exact IH.
Qed.

Lemma while_lt_neg_infinity (fuel : nat) :
  while_lt (T := float) fuel neg_infinity = None.
Proof.
  induction fuel as [|n IH]; [reflexivity|].
  rewrite while_lt_unfold.
  change (Tlt neg_infinity (Tneg (kPi (T := float)))) with true.
  change (Tadd neg_infinity (two_kPi (T := float))) with neg_infinity.
  exact IH.
Qed.

(** X3.  The doubles that are not finite: a NaN fails both loop tests and
    is returned as it is; [+inf] never leaves the first loop and [-inf]
    never leaves the second. *)
Theorem NormalizeAngleDifference_binary64_not_finite (fuel : nat) :
  NormalizeAngleDifference (T := float) (S fuel) nan = Some nan /\
  NormalizeAngleDifference (T := float) fuel infinity = None /\
  NormalizeAngleDifference (T := float) fuel neg_infinity = None.
Proof.
  unfold NormalizeAngleDifference. split; [reflexivity|]. split.
  - now rewrite while_gt_infinity.
  - destruct fuel as [|n]; [reflexivity|].
    rewrite while_gt_unfold.
    change (Tlt (kPi (T := float)) neg_infinity) with false.
    cbn match. apply while_lt_neg_infinity.
Qed.

(** ** The residual as the poses move *)

Section ResidualMoves.
Local Open Scope R_scope.
Implicit Types (observed : Pose R) (S : Matrix3 R) (p : Parameters R).

(** The residual at the first block of [run] and at a moved source. *)
Lemma analytic_01_moved_residuals (hx hy : R) :
  exists r : Vector3 R,
    SpaCostFunctorAnalytic.residuals analytic_01 1 (move_source hx hy parameters_01)
    = Some r.
Proof.
  unfold analytic_01. rewrite analytic_residual_spec.
  unfold residual_with_normalizer, spec_angle_error, observed_01, parameters_01, move_source.
  cbn [angle rotation translation target_theta source_theta Dsub DoubleOps_R].
  pose proof PI_RGT_0 as Hpi. pose proof PI2_1 as Hpi2.
  rewrite NormalizeAngleDifference_R_inside by lra.
  eexists. reflexivity.
Qed.

(** The finite-difference statement for the source position, at the first
    block of [run] moved by [(1, 2)]. *)
Lemma residual_affine_in_source_position_witness :
  exists r r' : Vector3 R,
    SpaCostFunctorAnalytic.residuals analytic_01 1 parameters_01 = Some r /\
    SpaCostFunctorAnalytic.residuals analytic_01 1 (move_source 1 2 parameters_01)
    = Some r' /\
    vcoeff r' I0 =
    vcoeff r I0
    + spec_d_source_x (llt_matrixU Identity) (source_theta parameters_01) I0 * 1
    + spec_d_source_y (llt_matrixU Identity) (source_theta parameters_01) I0 * 2.
Proof.
  destruct analytic_01_residuals as [r Hr].
  destruct (analytic_01_moved_residuals 1 2) as [r' Hr'].
  exists r, r'. split; [exact Hr|]. split; [exact Hr'|].
  exact (residual_affine_in_source_position observed_01 (llt_matrixU Identity) 1
           parameters_01 1 2 r r' I0 Hr Hr').
Defined.

(** X5.  The residual is affine in the target position, with the negated
    slopes of the source position: moving the target by [(hx, hy)] adds
    [- (S(i,0) c - S(i,1) s) hx - (S(i,0) s + S(i,1) c) hy] to row [i]. *)
Theorem residual_affine_in_target_position observed S (fuel : nat) p
    (hx hy : R) (r r' : Vector3 R) (i : Ix3) :
  SpaCostFunctorAnalytic.residuals (SpaCostFunctorAnalytic.make observed S) fuel p
    = Some r ->
  SpaCostFunctorAnalytic.residuals (SpaCostFunctorAnalytic.make observed S) fuel
    (move_target hx hy p) = Some r' ->
  vcoeff r' i =
  vcoeff r i - spec_d_source_x S (source_theta p) i * hx
             - spec_d_source_y S (source_theta p) i * hy.
Proof.
  rewrite !analytic_residual_spec. unfold residual_with_normalizer.
  change (spec_angle_error observed (move_target hx hy p))
    with (spec_angle_error observed p).
  destruct (NormalizeAngleDifference fuel (spec_angle_error observed p)) as [n|];
    [|discriminate].
  intros [= <-] [= <-].
  destruct S as [[? ? ?] [? ? ?] [? ? ?]], observed as [[ox oy] [oa]], p as [? ? ? ? ? ?].
  unfold spec_d_source_x, spec_d_source_y.
  destruct i; cbn; ring.
Qed.

Lemma analytic_01_moved_target_residuals (hx hy : R) :
  exists r : Vector3 R,
    SpaCostFunctorAnalytic.residuals analytic_01 1 (move_target hx hy parameters_01)
    = Some r.
Proof.
  unfold analytic_01. rewrite analytic_residual_spec.
  unfold residual_with_normalizer, spec_angle_error, observed_01, parameters_01, move_target.
  cbn [angle rotation translation target_theta source_theta Dsub DoubleOps_R].
  pose proof PI_RGT_0 as Hpi. pose proof PI2_1 as Hpi2.
  rewrite NormalizeAngleDifference_R_inside by lra.
  eexists. reflexivity.
Qed.

Lemma residual_affine_in_target_position_witness :
  exists r r' : Vector3 R,
    SpaCostFunctorAnalytic.residuals analytic_01 1 parameters_01 = Some r /\
    SpaCostFunctorAnalytic.residuals analytic_01 1 (move_target 1 2 parameters_01)
    = Some r' /\
    vcoeff r' I0 =
    vcoeff r I0
    - spec_d_source_x (llt_matrixU Identity) (source_theta parameters_01) I0 * 1
    - spec_d_source_y (llt_matrixU Identity) (source_theta parameters_01) I0 * 2.
Proof.
  destruct analytic_01_residuals as [r Hr].
  destruct (analytic_01_moved_target_residuals 1 2) as [r' Hr'].
  exists r, r'. split; [exact Hr|]. split; [exact Hr'|].
  exact (residual_affine_in_target_position observed_01 (llt_matrixU Identity) 1
           parameters_01 1 2 r r' I0 Hr Hr').
Defined.

(** Shifting the argument by [h] shifts the normalised angle by [h] as long
    as that stays strictly inside [(- PI, PI)]. *)
Lemma NormalizeAngleDifference_R_shift (fuel : nat) (e n h : R) :
  NormalizeAngleDifference (T := R) fuel e = Some n ->
  - PI < n + h < PI ->
  NormalizeAngleDifference (T := R) (enough_fuel (e + h)) (e + h) = Some (n + h).
Proof.
  intros Hn Hin.
  destruct (NormalizeAngleDifference_R_result _ _ _ Hn) as (_ & j & Hj).
  destruct (NormalizeAngleDifference_R_terminates (e + h)) as [r' Hr'].
  rewrite Hr'. f_equal.
  destruct (NormalizeAngleDifference_R_result _ _ _ Hr') as (Hrange' & j' & Hj').
  apply (turns_apart_equal (n + h) r' (j' - j)%Z); [exact Hin | exact Hrange' |].
  rewrite minus_IZR. lra.
Qed.

(** An angle difference already inside [[- PI, PI]] needs one test of each
    loop. *)
Lemma residuals_inside observed S p (fuel : nat) :
  - PI <= spec_angle_error observed p <= PI ->
  SpaCostFunctorAnalytic.residuals (SpaCostFunctorAnalytic.make observed S)
    (Datatypes.S fuel) p
  = Some (spec_whiten S (spec_unwhitened observed p (spec_angle_error observed p))).
Proof.
  intros Hin. rewrite analytic_residual_spec. unfold residual_with_normalizer.
  now rewrite NormalizeAngleDifference_R_inside.
Qed.

(** X6.  The [x] columns [Evaluate] writes are the exact slopes of the
    residual it writes: moving the source, or the target, by [h] along [x]
    adds [h] times the source-[x], or the target-[x], column to the
    residual, in every row and whichever columns are requested with them;
    for the target column that is both the copy of the negated source
    column and the formula used when the source column is not requested. *)
Theorem x_columns_are_slopes observed S (fuel : nat) p (h : R) (req req' : Request)
    (r rs rt cs ct : Vector3 R) (i : Ix3) :
  let self := SpaCostFunctorAnalytic.make observed S in
  SpaCostFunctorAnalytic.residuals self fuel p = Some r ->
  SpaCostFunctorAnalytic.residuals self fuel (move_source h 0 p) = Some rs ->
  SpaCostFunctorAnalytic.residuals self fuel (move_target h 0 p) = Some rt ->
  jacobian_source_x (SpaCostFunctorAnalytic.fill_jacobians self p req) = Some cs ->
  jacobian_target_x (SpaCostFunctorAnalytic.fill_jacobians self p req') = Some ct ->
  vcoeff rs i = vcoeff r i + vcoeff cs i * h /\
  vcoeff rt i = vcoeff r i + vcoeff ct i * h.
Proof.
  intros self. subst self. rewrite !analytic_residual_spec.
  unfold residual_with_normalizer.
  change (spec_angle_error observed (move_source h 0 p))
    with (spec_angle_error observed p).
  change (spec_angle_error observed (move_target h 0 p))
    with (spec_angle_error observed p).
  destruct (NormalizeAngleDifference fuel (spec_angle_error observed p)) as [n|];
    [|discriminate].
  intros [= <-] [= <-] [= <-].
  unfold SpaCostFunctorAnalytic.fill_jacobians.
  cbn [jacobian_source_x jacobian_target_x].
  destruct (want_source_x req); [|discriminate].
  destruct (want_target_x req'); [|discriminate].
  destruct (want_source_x req');
    intros [= <-] [= <-];
    destruct S as [[? ? ?] [? ? ?] [? ? ?]], observed as [[ox oy] [oa]],
      p as [? ? ? ? ? ?];
    split; destruct i; cbn; ring.
Qed.

(** The theorem with the source column requested alone and the target
    column requested alone, so that the target column comes from the
    formula of lines 134-139. *)
Lemma x_columns_are_slopes_witness :
  exists r rs rt cs ct : Vector3 R,
    let self := SpaCostFunctorAnalytic.make pose_zero Identity in
    SpaCostFunctorAnalytic.residuals self 1 parameters_zero = Some r /\
    SpaCostFunctorAnalytic.residuals self 1 (move_source 1 0 parameters_zero) = Some rs /\
    SpaCostFunctorAnalytic.residuals self 1 (move_target 1 0 parameters_zero) = Some rt /\
    jacobian_source_x
      (SpaCostFunctorAnalytic.fill_jacobians self parameters_zero request_source_x)
    = Some cs /\
    jacobian_target_x
      (SpaCostFunctorAnalytic.fill_jacobians self parameters_zero request_target_x)
    = Some ct /\
    vcoeff rs I0 = vcoeff r I0 + vcoeff cs I0 * 1 /\
    vcoeff rt I0 = vcoeff r I0 + vcoeff ct I0 * 1.
Proof.
  pose proof PI_RGT_0 as Hpi.
  assert (forall p, spec_angle_error pose_zero p = 0 - (target_theta p - source_theta p))
    as Herr by reflexivity.
  pose proof (residuals_inside pose_zero Identity parameters_zero 0) as Hr.
  pose proof (residuals_inside pose_zero Identity (move_source 1 0 parameters_zero) 0) as Hrs.
  pose proof (residuals_inside pose_zero Identity (move_target 1 0 parameters_zero) 0) as Hrt.
  rewrite Herr in Hr, Hrs, Hrt. cbn [target_theta source_theta parameters_zero
    move_source move_target] in Hr, Hrs, Hrt.
  specialize (Hr ltac:(lra)). specialize (Hrs ltac:(lra)). specialize (Hrt ltac:(lra)).
  do 5 eexists. cbn zeta.
  split; [exact Hr|]. split; [exact Hrs|]. split; [exact Hrt|].
  split; [reflexivity|]. split; [reflexivity|].
  exact (x_columns_are_slopes pose_zero Identity 1 parameters_zero 1
           request_source_x request_target_x
           _ _ _ _ _ I0 Hr Hrs Hrt eq_refl eq_refl).
Defined.

(** X7.  The target-angle column [Evaluate] writes is the exact slope of
    the residual in the target angle: turning the target by [h] adds [h]
    times that column, as long as the normalised angle difference stays
    strictly inside [(- PI, PI)]. *)
Theorem target_theta_column_is_slope observed S (fuel : nat) p (h n : R)
    (req : Request) (col : Vector3 R) (i : Ix3) :
  let self := SpaCostFunctorAnalytic.make observed S in
  NormalizeAngleDifference (T := R) fuel (spec_angle_error observed p) = Some n ->
  - PI < n - h < PI ->
  jacobian_target_theta (SpaCostFunctorAnalytic.fill_jacobians self p req) = Some col ->
  exists r r' : Vector3 R,
    SpaCostFunctorAnalytic.residuals self fuel p = Some r /\
    SpaCostFunctorAnalytic.residuals self
      (enough_fuel (spec_angle_error observed (turn_target h p))) (turn_target h p)
    = Some r' /\
    vcoeff r' i = vcoeff r i + vcoeff col i * h.
Proof.
  intros self Hn Hin Hcol. subst self.
  rewrite !analytic_residual_spec. unfold residual_with_normalizer. rewrite Hn.
  replace (spec_angle_error observed (turn_target h p))
    with (spec_angle_error observed p + - h)
    by (unfold spec_angle_error, turn_target; cbn; lra).
  rewrite (NormalizeAngleDifference_R_shift fuel _ n (- h) Hn) by lra.
  do 2 eexists. split; [reflexivity|]. split; [reflexivity|].
  revert Hcol. unfold SpaCostFunctorAnalytic.fill_jacobians.
  cbn [jacobian_target_theta].
  destruct (want_target_theta req); [|discriminate]. intros [= <-].
  destruct S as [[? ? ?] [? ? ?] [? ? ?]], observed as [[ox oy] [oa]],
    p as [? ? ? ? ? ?].
  destruct i; cbn; ring.
Qed.

Lemma target_theta_column_is_slope_witness :
  exists r r' : Vector3 R,
    SpaCostFunctorAnalytic.residuals (SpaCostFunctorAnalytic.make pose_zero Identity)
      1 parameters_zero = Some r /\
    SpaCostFunctorAnalytic.residuals (SpaCostFunctorAnalytic.make pose_zero Identity)
      (enough_fuel (spec_angle_error pose_zero (turn_target 1 parameters_zero)))
      (turn_target 1 parameters_zero)
    = Some r' /\
    vcoeff r' I2 = vcoeff r I2 + vcoeff (mkVector3 (- 0) (- 0) (- 1)) I2 * 1.
Proof.
  pose proof PI_RGT_0 as Hpi. pose proof PI2_1 as Hpi2.
  apply (target_theta_column_is_slope pose_zero Identity 1 parameters_zero 1
           (spec_angle_error pose_zero parameters_zero)
           request_all (mkVector3 (- 0) (- 0) (- 1)) I2).
  - apply NormalizeAngleDifference_R_inside.
    unfold spec_angle_error, pose_zero, parameters_zero. cbn. lra.
  - unfold spec_angle_error, pose_zero, parameters_zero. cbn. lra.
  - reflexivity.
Defined.

(** X8.  With source and target at the same position the source-angle
    column [Evaluate] writes is zero in every row, while turning the source
    by [h] adds [S(i,2) h] to row [i] of the residual, as long as the
    normalised angle difference stays strictly inside [(- PI, PI)]: the
    column leaves out the angle row of the residual. *)
Theorem source_theta_column_at_coincident_positions observed S (fuel : nat) p
    (h n : R) (req : Request) (col : Vector3 R) (i : Ix3) :
  let self := SpaCostFunctorAnalytic.make observed S in
  source_x p = target_x p -> source_y p = target_y p ->
  NormalizeAngleDifference (T := R) fuel (spec_angle_error observed p) = Some n ->
  - PI < n + h < PI ->
  jacobian_source_theta (SpaCostFunctorAnalytic.fill_jacobians self p req) = Some col ->
  vcoeff col i = 0 /\
  exists r r' : Vector3 R,
    SpaCostFunctorAnalytic.residuals self fuel p = Some r /\
    SpaCostFunctorAnalytic.residuals self
      (enough_fuel (spec_angle_error observed (turn_source h p))) (turn_source h p)
    = Some r' /\
    vcoeff r' i = vcoeff r i + coeff S i I2 * h.
Proof.
  intros self Hx Hy Hn Hin Hcol. subst self. split.
  - revert Hcol. unfold SpaCostFunctorAnalytic.fill_jacobians.
    cbn [jacobian_source_theta].
    destruct (want_source_theta req); [|discriminate]. intros [= <-].
    destruct S as [[? ? ?] [? ? ?] [? ? ?]], p as [? ? ? ? ? ?].
    cbn in Hx, Hy. subst. destruct i; cbn; ring.
  - rewrite !analytic_residual_spec. unfold residual_with_normalizer. rewrite Hn.
    replace (spec_angle_error observed (turn_source h p))
      with (spec_angle_error observed p + h)
      by (unfold spec_angle_error, turn_source; cbn; lra).
    rewrite (NormalizeAngleDifference_R_shift fuel _ n h Hn) by lra.
    do 2 eexists. split; [reflexivity|]. split; [reflexivity|].
    destruct S as [[? ? ?] [? ? ?] [? ? ?]], observed as [[ox oy] [oa]],
      p as [? ? ? ? ? ?].
    cbn in Hx, Hy. subst. destruct i; cbn; ring.
Qed.

Lemma source_theta_column_at_coincident_positions_witness :
  exists col : Vector3 R,
    jacobian_source_theta
      (SpaCostFunctorAnalytic.fill_jacobians
         (SpaCostFunctorAnalytic.make pose_zero Identity) parameters_zero request_all)
    = Some col /\
    vcoeff col I2 = 0 /\
    exists r r' : Vector3 R,
      SpaCostFunctorAnalytic.residuals (SpaCostFunctorAnalytic.make pose_zero Identity)
        1 parameters_zero = Some r /\
      SpaCostFunctorAnalytic.residuals (SpaCostFunctorAnalytic.make pose_zero Identity)
        (enough_fuel (spec_angle_error pose_zero (turn_source 1 parameters_zero)))
        (turn_source 1 parameters_zero)
      = Some r' /\
      vcoeff r' I2 = vcoeff r I2 + coeff (Identity (D := R)) I2 I2 * 1.
Proof.
  pose proof PI_RGT_0 as Hpi. pose proof PI2_1 as Hpi2.
  eexists. split; [reflexivity|].
  apply (source_theta_column_at_coincident_positions pose_zero Identity 1
           parameters_zero 1 (spec_angle_error pose_zero parameters_zero)
           request_all _ I2).
  - reflexivity.
  - reflexivity.
  - apply NormalizeAngleDifference_R_inside.
    unfold spec_angle_error, pose_zero, parameters_zero. cbn. lra.
  - unfold spec_angle_error, pose_zero, parameters_zero. cbn. lra.
  - reflexivity.
Defined.

(** X9.  When the target is the source followed by the observed relative
    pose, the residual is the zero vector, for every source pose, every
    observation and every whitening matrix. *)
Theorem residual_zero_at_composed_pose observed S (source_pose : Pose R) (fuel : nat) :
  SpaCostFunctorAnalytic.residuals (SpaCostFunctorAnalytic.make observed S)
    (Datatypes.S fuel)
    (parameters_of source_pose (compose_pose source_pose observed))
  = Some (mkVector3 0 0 0).
Proof.
  pose proof PI_RGT_0 as Hpi.
  destruct observed as [[ox oy] [oa]], source_pose as [[sx sy] [sa]].
  rewrite analytic_residual_spec. unfold residual_with_normalizer, spec_angle_error.
  cbn [parameters_of compose_pose angle rotation translation x y
       target_theta source_theta Dsub DoubleOps_R].
  replace (oa - (sa + oa - sa)) with 0 by lra.
  rewrite NormalizeAngleDifference_R_inside by lra.
  assert (sin sa * sin sa + cos sa * cos sa = 1) as Hsc.
  { pose proof (sin2_cos2 sa) as E. unfold Rsqr in E. exact E. }
  unfold spec_unwhitened.
  cbn [parameters_of compose_pose angle rotation translation x y
       target_x target_y source_x source_y target_theta source_theta
       Dsub Dadd Dmul Dcos Dsin DoubleOps_R Libm_R].
  replace (ox - (cos sa * (sx + (cos sa * ox - sin sa * oy) - sx)
                 + sin sa * (sy + (sin sa * ox + cos sa * oy) - sy)))
    with (ox * (1 - (sin sa * sin sa + cos sa * cos sa))) by ring.
  replace (oy - (cos sa * (sy + (sin sa * ox + cos sa * oy) - sy)
                 - sin sa * (sx + (cos sa * ox - sin sa * oy) - sx)))
    with (oy * (1 - (sin sa * sin sa + cos sa * cos sa))) by ring.
  rewrite Hsc.
  destruct S as [[? ? ?] [? ? ?] [? ? ?]]. unfold spec_whiten. cbn.
  f_equal. f_equal; ring.
Qed.

(** X10.  The residual does not change when one rigid motion of the plane
    is applied to both poses: it depends on the two poses only through
    their relative pose.  (This is the freedom [Optimize] removes by
    holding pose [0] constant.) *)
Theorem residual_invariant_under_rigid_motion observed S (fuel : nat)
    (source_pose target_pose : Pose R) (tx ty phi : R) :
  SpaCostFunctorAnalytic.residuals (SpaCostFunctorAnalytic.make observed S) fuel
    (parameters_of (rigid_motion tx ty phi source_pose)
                   (rigid_motion tx ty phi target_pose))
  = SpaCostFunctorAnalytic.residuals (SpaCostFunctorAnalytic.make observed S) fuel
      (parameters_of source_pose target_pose).
Proof.
  destruct observed as [[ox oy] [oa]], source_pose as [[sx sy] [sa]],
    target_pose as [[px py] [pa]].
  rewrite !analytic_residual_spec. unfold residual_with_normalizer, spec_angle_error.
  cbn [parameters_of rigid_motion angle rotation translation x y
       target_theta source_theta Dsub DoubleOps_R].
  replace (oa - (pa + phi - (sa + phi))) with (oa - (pa - sa)) by lra.
  destruct (NormalizeAngleDifference fuel (oa - (pa - sa))) as [n|]; [|reflexivity].
  f_equal. f_equal.
  assert (sin phi * sin phi + cos phi * cos phi = 1) as Hsc.
  { pose proof (sin2_cos2 phi) as E. unfold Rsqr in E. exact E. }
  unfold spec_unwhitened.
  cbn [parameters_of rigid_motion angle rotation translation x y
       target_x target_y source_x source_y target_theta source_theta
       Dsub Dadd Dmul Dcos Dsin DoubleOps_R Libm_R].
  rewrite cos_plus, sin_plus.
  f_equal.
  - transitivity (ox - (sin phi * sin phi + cos phi * cos phi)
                       * (cos sa * (px - sx) + sin sa * (py - sy))); [ring|].
    rewrite Hsc. ring.
  - transitivity (oy - (sin phi * sin phi + cos phi * cos phi)
                       * (cos sa * (py - sy) - sin sa * (px - sx))); [ring|].
    rewrite Hsc. ring.
Qed.
End ResidualMoves.

(** ** Automatic differentiation of the functor *)

Section AutoDiff.
Local Open Scope R_scope.

(** Subtracting or adding the constant [2. * kPi] leaves the derivative
    part of a jet of six partial derivatives as it is. *)
Lemma Jet_sub_two_kPi (j : Jet R) :
  length (v j) = kJetSize -> v (Tsub j (two_kPi (T := Jet R))) = v j.
Proof.
  destruct j as [d l]. cbn [v]. intros Hlen.
  do 7 (destruct l as [|? l]; try discriminate Hlen).
  cbn. repeat f_equal; lra.
Qed.

Lemma Jet_add_two_kPi (j : Jet R) :
  length (v j) = kJetSize -> v (Tadd j (two_kPi (T := Jet R))) = v j.
Proof.
  destruct j as [d l]. cbn [v]. intros Hlen.
  do 7 (destruct l as [|? l]; try discriminate Hlen).
  cbn. repeat f_equal; lra.
Qed.

Lemma while_gt_Jet_derivative (fuel : nat) (j j' : Jet R) :
  length (v j) = kJetSize ->
  while_gt (T := Jet R) fuel j = Some j' -> v j' = v j.
Proof.
  revert j. induction fuel as [|n IH]; intros j Hlen Hj'; [discriminate|].
  rewrite while_gt_unfold in Hj'.
  destruct (Tlt kPi j).
  - rewrite (IH _ (eq_trans (f_equal (@length R) (Jet_sub_two_kPi j Hlen)) Hlen) Hj').
    now apply Jet_sub_two_kPi.
  - now injection Hj' as <-.
Qed.

Lemma while_lt_Jet_derivative (fuel : nat) (j j' : Jet R) :
  length (v j) = kJetSize ->
  while_lt (T := Jet R) fuel j = Some j' -> v j' = v j.
Proof.
  revert j. induction fuel as [|n IH]; intros j Hlen Hj'; [discriminate|].
  rewrite while_lt_unfold in Hj'.
  destruct (Tlt j (Tneg kPi)).
  - rewrite (IH _ (eq_trans (f_equal (@length R) (Jet_add_two_kPi j Hlen)) Hlen) Hj').
    now apply Jet_add_two_kPi.
  - now injection Hj' as <-.
Qed.

(** Normalising an angle does not touch its derivatives. *)
Lemma NormalizeAngleDifference_Jet_derivative (fuel : nat) (j j' : Jet R) :
  length (v j) = kJetSize ->
  NormalizeAngleDifference (T := Jet R) fuel j = Some j' -> v j' = v j.
Proof.
  unfold NormalizeAngleDifference. intros Hlen Hj'.
  destruct (while_gt (T := Jet R) fuel j) as [j1|] eqn:E1; [|discriminate].
  pose proof (while_gt_Jet_derivative _ _ _ Hlen E1) as H1.
  rewrite <- H1. apply (while_lt_Jet_derivative fuel); [|exact Hj'].
  now rewrite H1.
Qed.

(** X11.  The partial derivatives automatic differentiation obtains from
    [operator()], row [i] of the residual by the six parameters in order:
    for [x_s], [y_s], [x_t], [y_t] and [theta_t] they are the columns of
    section 4.2, with [S(i,1)] in the [y] entries of every row; for
    [theta_s] they are [S(i,0) (s dx - c dy) + S(i,1) (c dx + s dy)]
    plus [S(i,2)]. *)
Theorem autodiff_partial_derivatives (observed : Pose R) (S : Matrix3 R)
    (fuel : nat) (p : Parameters R) (res : Vector3 (Jet R)) (i : Ix3) :
  autodiff_call (SpaCostFunctor.make observed S) fuel p = Some res ->
  let c := cos (source_theta p) in
  let s := sin (source_theta p) in
  let dx := target_x p - source_x p in
  let dy := target_y p - source_y p in
  v (vcoeff res i) =
  [ coeff S i I0 * c - coeff S i I1 * s
  ; coeff S i I0 * s + coeff S i I1 * c
  ; coeff S i I0 * (s * dx - c * dy) + coeff S i I1 * (c * dx + s * dy) + coeff S i I2
  ; - (coeff S i I0 * c - coeff S i I1 * s)
  ; - (coeff S i I0 * s + coeff S i I1 * c)
  ; - coeff S i I2 ].
Proof.
  unfold autodiff_call, SpaCostFunctor.call.
  destruct (NormalizeAngleDifference (T := Jet R) fuel _) as [j2|] eqn:E; [|discriminate].
  apply NormalizeAngleDifference_Jet_derivative in E; [|reflexivity].
  intros [= <-]. destruct j2 as [n l]. cbn [v] in E. subst l.
  destruct S as [[? ? ?] [? ? ?] [? ? ?]], observed as [[ox oy] [oa]],
    p as [? ? ? ? ? ?].
  destruct i; cbn; repeat (apply (f_equal2 cons); [ring|]); reflexivity.
Qed.

(** The functor returns at jets when it returns at their values. *)
Lemma autodiff_call_returns (observed : Pose R) (S : Matrix3 R) (fuel : nat)
    (p : Parameters R) :
  - PI <= spec_angle_error observed p <= PI ->
  exists res : Vector3 (Jet R),
    autodiff_call (SpaCostFunctor.make observed S) (Datatypes.S fuel) p = Some res.
Proof.
  intros Hin.
  pose proof (functor_Jet_values (SpaCostFunctor.make observed S) (Datatypes.S fuel)
                (jet_of (source_x p) 0) (jet_of (source_y p) 1)
                (jet_of (source_theta p) 2) (jet_of (target_x p) 3)
                (jet_of (target_y p) 4) (jet_of (target_theta p) 5)) as E.
  cbn [a jet_of] in E. rewrite functor_residual_spec in E.
  unfold residual_with_normalizer in E.
  rewrite NormalizeAngleDifference_R_inside in E by exact Hin.
  unfold autodiff_call.
  destruct (SpaCostFunctor.call (T := Jet R) _ _ _ _ _ _ _ _) as [res|];
    [now exists res | discriminate].
Qed.

Lemma autodiff_partial_derivatives_witness :
  exists res : Vector3 (Jet R),
    autodiff_call (SpaCostFunctor.make pose_zero Identity) 1 parameters_zero = Some res /\
    let c := cos (source_theta parameters_zero) in
    let s := sin (source_theta parameters_zero) in
    let dx := target_x parameters_zero - source_x parameters_zero in
    let dy := target_y parameters_zero - source_y parameters_zero in
    v (vcoeff res I2) =
    [ coeff (Identity (D := R)) I2 I0 * c - coeff (Identity (D := R)) I2 I1 * s
    ; coeff (Identity (D := R)) I2 I0 * s + coeff (Identity (D := R)) I2 I1 * c
    ; coeff (Identity (D := R)) I2 I0 * (s * dx - c * dy)
      + coeff (Identity (D := R)) I2 I1 * (c * dx + s * dy)
      + coeff (Identity (D := R)) I2 I2
    ; - (coeff (Identity (D := R)) I2 I0 * c - coeff (Identity (D := R)) I2 I1 * s)
    ; - (coeff (Identity (D := R)) I2 I0 * s + coeff (Identity (D := R)) I2 I1 * c)
    ; - coeff (Identity (D := R)) I2 I2 ].
Proof.
  pose proof PI_RGT_0 as Hpi.
  destruct (autodiff_call_returns pose_zero Identity 0 parameters_zero) as [res Hres].
  { unfold spec_angle_error, pose_zero, parameters_zero. cbn. lra. }
  exists res. split; [exact Hres|].
  exact (autodiff_partial_derivatives pose_zero Identity 1 parameters_zero res I2 Hres).
Defined.
End AutoDiff.

(** ** The assembled problem *)

Section AssemblyMore.
Context {D : Type} `{DoubleOps D}.
Implicit Types (poses : gmap Z (Pose D)) (constraints : list (Constraint D))
  (id : Z) (f : Field).

Lemma elem_of_pose_blocks (ref : ParamRef) id :
  ref ∈ pose_blocks id -> fst ref = id.
Proof.
  unfold pose_blocks. intros Hin.
  repeat (apply elem_of_cons in Hin as [-> | Hin]; [reflexivity|]).
  now apply elem_of_nil in Hin.
Qed.

Lemma pose_blocks_elem id f : (id, f) ∈ pose_blocks id.
Proof. unfold pose_blocks. destruct f; repeat constructor. Qed.

Lemma referenced_source constraints (c : Constraint D) :
  c ∈ constraints -> source c ∈ referenced_ids constraints.
Proof.
  intros Hc. unfold referenced_ids. apply elem_of_app. left.
  apply list_elem_of_In, in_flat_map. exists c.
  split; [now apply list_elem_of_In | now left].
Qed.

Lemma referenced_target constraints (c : Constraint D) :
  c ∈ constraints -> target c ∈ referenced_ids constraints.
Proof.
  intros Hc. unfold referenced_ids. apply elem_of_app. left.
  apply list_elem_of_In, in_flat_map. exists c.
  split; [now apply list_elem_of_In | right; now left].
Qed.

Lemma assemble_lookup_referenced constraints poses (b : bool) id :
  id ∈ referenced_ids constraints ->
  is_Some (st_poses (assemble constraints poses b) !! id).
Proof.
  intros Hin.
  destruct (assemble_state constraints poses b) as (Hp & _ & _).
  cbn zeta in Hp. rewrite Hp, fold_map_subscript_lookup.
  destruct (poses !! id); [eauto|].
  rewrite bool_decide_eq_true_2 by exact Hin. eauto.
Qed.

(** X12.  Every address [Optimize] hands to the solver points into the
    map: each parameter block of each residual block, and each block set
    constant, belongs to a pose that is a key of the map when the solver
    is called. *)
Theorem assemble_blocks_point_into_map constraints poses (b : bool) :
  let st := assemble constraints poses b in
  (forall (blk : ResidualBlock D) (ref : ParamRef),
     blk ∈ residual_blocks (st_problem st) -> ref ∈ parameter_blocks blk ->
     is_Some (st_poses st !! fst ref)) /\
  (forall ref : ParamRef,
     ref ∈ constant_blocks (st_problem st) -> is_Some (st_poses st !! fst ref)).
Proof.
  destruct (assemble_state constraints poses b) as (_ & Hq & _).
  cbn zeta in Hq. cbn zeta. rewrite Hq. cbn [residual_blocks constant_blocks].
  split.
  - intros blk ref Hblk Href.
    apply list_elem_of_fmap in Hblk as (c & -> & Hc).
    unfold residual_block_for in Href. cbn [parameter_blocks] in Href.
    apply assemble_lookup_referenced.
    apply elem_of_app in Href as [Href | Href];
      apply elem_of_pose_blocks in Href; rewrite Href.
    + now apply referenced_source.
    + now apply referenced_target.
  - intros ref Href. apply elem_of_pose_blocks in Href. rewrite Href.
    apply assemble_lookup_referenced.
    unfold referenced_ids. apply elem_of_app. right. constructor.
Qed.

(** X13.  The scalars of pose [0], which are set constant, are parameter
    blocks of some residual block exactly when some constraint has pose
    [0] as its source or its target; with no such constraint (an empty
    list in particular) [SetParameterBlockConstant] is called on blocks
    that were never added to the problem. *)
Theorem anchor_blocks_added_iff constraints poses (b : bool) f :
  (exists blk : ResidualBlock D,
     blk ∈ residual_blocks (st_problem (assemble constraints poses b)) /\
     (0%Z, f) ∈ parameter_blocks blk)
  <-> (exists c : Constraint D, c ∈ constraints /\ (source c = 0%Z \/ target c = 0%Z)).
Proof.
  destruct (assemble_state constraints poses b) as (_ & Hq & _).
  cbn zeta in Hq. rewrite Hq. cbn [residual_blocks]. split.
  - intros (blk & Hblk & Href).
    apply list_elem_of_fmap in Hblk as (c & -> & Hc).
    exists c. split; [exact Hc|].
    unfold residual_block_for in Href. cbn [parameter_blocks] in Href.
    apply elem_of_app in Href as [Href | Href];
      apply elem_of_pose_blocks in Href; cbn [fst] in Href; auto.
  - intros (c & Hc & Hzero).
    exists (residual_block_for b (llt_matrixU Identity) c).
    split; [apply list_elem_of_fmap; eauto|].
    unfold residual_block_for. cbn [parameter_blocks].
    apply elem_of_app. destruct Hzero as [-> | ->]; [left | right];
      apply pose_blocks_elem.
Qed.

(** X14.  The six parameter blocks of a residual block are pairwise
    distinct exactly when the constraint's source and target differ: a
    constraint from a pose to itself registers every scalar twice. *)
Theorem residual_block_distinct_iff (b : bool) (S : Matrix3 D) (c : Constraint D) :
  NoDup (parameter_blocks (residual_block_for b S c)) <-> source c <> target c.
Proof.
  unfold residual_block_for, pose_blocks. cbn [parameter_blocks app]. split.
  - intros Hnd Heq. rewrite Heq in Hnd.
    apply NoDup_cons in Hnd as [Hnotin _]. apply Hnotin.
    do 2 right. left.
  - intros Hne.
    repeat (apply NoDup_cons; split;
            [rewrite ?elem_of_cons, elem_of_nil; intros Hin;
             repeat destruct Hin as [Hin | Hin]; try congruence; exact Hin|]).
    apply NoDup_nil_2.
Qed.

(** X15.  The problem [Optimize] builds does not depend on the map of
    poses, and assembling again from the map a first call has left adds
    no further pose. *)
Theorem assemble_again constraints poses poses' (b : bool) :
  st_problem (assemble constraints poses' b) = st_problem (assemble constraints poses b) /\
  st_poses (assemble constraints (st_poses (assemble constraints poses b)) b)
  = st_poses (assemble constraints poses b).
Proof.
  destruct (assemble_state constraints poses b) as (Hp & Hq & _).
  destruct (assemble_state constraints poses' b) as (_ & Hq' & _).
  destruct (assemble_state constraints (st_poses (assemble constraints poses b)) b)
    as (Hp2 & _ & _).
  cbn zeta in Hp, Hq, Hq', Hp2. split; [now rewrite Hq, Hq'|].
  rewrite Hp2. apply map_eq. intros id.
  rewrite fold_map_subscript_lookup.
  destruct (st_poses (assemble constraints poses b) !! id) as [q|] eqn:Eq;
    [reflexivity|].
  rewrite Hp, fold_map_subscript_lookup in Eq.
  destruct (poses !! id); [discriminate|].
  destruct (bool_decide (id ∈ referenced_ids constraints)); [discriminate | reflexivity].
Qed.

(** X16.  A map that already holds every pose the constraints and the
    anchor refer to is left as it is by assembly. *)
Theorem assemble_keeps_complete_map constraints poses (b : bool) :
  (forall id, id ∈ referenced_ids constraints -> is_Some (poses !! id)) ->
  st_poses (assemble constraints poses b) = poses.
Proof.
  intros Hall.
  destruct (assemble_state constraints poses b) as (Hp & _ & _).
  cbn zeta in Hp. rewrite Hp. apply map_eq. intros id.
  rewrite fold_map_subscript_lookup.
  destruct (poses !! id) as [q|] eqn:Eq; [reflexivity|].
  destruct (bool_decide_reflect (id ∈ referenced_ids constraints)) as [Hin|Hout];
    [|reflexivity].
  destruct (Hall id Hin) as [q Hq]. congruence.
Qed.

(** X17.  The library calls of [Optimize], in order: the Cholesky factor
    of the identity; one [AddResidualBlock] per constraint, in the order
    of the list, each with a Huber loss of scale [1.0] and the source's
    then the target's three scalars; the three [SetParameterBlockConstant]
    for pose [0]; and last the solver, on the problem these calls built. *)
Theorem Optimize_call_order
    (Solve : Problem D -> gmap Z (Pose D) -> gmap Z (Pose D) * Summary D)
    constraints poses (b : bool) :
  let blocks := map (residual_block_for b (llt_matrixU Identity)) constraints in
  snd (Optimize Solve constraints poses b) =
    CallLLT Identity :: map CallAddResidualBlock blocks
      ++ map CallSetParameterBlockConstant (pose_blocks 0)
      ++ [CallSolve (mkProblem blocks (pose_blocks 0))] /\
  Forall2 (fun (c : Constraint D) (blk : ResidualBlock D) =>
             loss_function blk = HuberLoss D1 /\
             parameter_blocks blk = pose_blocks (source c) ++ pose_blocks (target c))
          constraints blocks.
Proof.
  destruct (assemble_state constraints poses b) as (_ & Hq & Hc).
  cbn zeta in Hq, Hc. cbn zeta. split.
  - unfold Optimize. cbn [snd]. rewrite Hc, Hq.
    cbn [app]. now rewrite <- app_assoc.
  - apply Forall2_fmap_r, Forall_Forall2_diag, Forall_forall.
    intros c _. split; reflexivity.
Qed.
End AssemblyMore.

Lemma assemble_keeps_complete_map_witness :
  st_poses (assemble run_constraints run_poses true) = run_poses.
Proof.
  apply assemble_keeps_complete_map. intros id Hin.
  unfold referenced_ids, run_constraints in Hin. cbn in Hin.
  repeat (apply elem_of_cons in Hin as [-> | Hin]; [eexists; reflexivity|]).
  now apply elem_of_nil in Hin.
Defined.

Section CostModes.
Context {D : Type} `{DoubleOps D} `{Libm D}.

(** X18.  The flag [use_analytic_cost] changes neither the poses the map
    holds when the solver is called nor, block by block, the parameter
    blocks, the loss, or the residual the cost function computes: the two
    problems differ only in how a Jacobian is obtained. *)
Theorem cost_mode_same_residuals (constraints : list (Constraint D))
    (poses : gmap Z (Pose D)) :
  st_poses (assemble constraints poses true) = st_poses (assemble constraints poses false) /\
  Forall2 (fun analytic autodiff : ResidualBlock D =>
             parameter_blocks analytic = parameter_blocks autodiff /\
             loss_function analytic = loss_function autodiff /\
             forall (fuel : nat) (p : Parameters D),
               cost_residual (cost_function analytic) fuel p
               = cost_residual (cost_function autodiff) fuel p)
          (residual_blocks (st_problem (assemble constraints poses true)))
          (residual_blocks (st_problem (assemble constraints poses false))).
Proof.
  destruct (assemble_state constraints poses true) as (Hp & Hq & _).
  destruct (assemble_state constraints poses false) as (Hp' & Hq' & _).
  cbn zeta in Hp, Hq, Hp', Hq'. split; [now rewrite Hp, Hp'|].
  rewrite Hq, Hq'. cbn [residual_blocks].
  apply Forall2_fmap, Forall_Forall2_diag, Forall_forall.
  intros c _. unfold residual_block_for.
  cbn [parameter_blocks loss_function cost_function].
  split; [reflexivity|]. split; [reflexivity|].
  intros fuel p. unfold cost_residual.
  rewrite Evaluate_residual, analytic_residual_spec, functor_residual_spec.
  reflexivity.
Qed.
End CostModes.
